(** * The MaxInFlight limiter of agent-stack-k8s

    A shallow embedding of [internal/controller/limiter] (the [MaxInFlight]
    job handler and its informer callbacks) together with the facts about its
    token bucket.

    The token bucket is a buffered Go channel of [struct{}] values.  The
    limiter's goroutines are written as small programs over the channel
    operations the source performs, and run either alone ([exec]) or
    interleaved with each other and with the environment ([step], [run]):
    other calls of [Handle], the informer's callbacks, the cancellation of
    contexts and the closing of stale channels.

    Left out of the model: the logger (its calls only read [len] of the
    bucket), the wall-clock value fed to the wait histogram (only the number
    of observations is kept), and [RegisterInformer] (pure client-go
    plumbing).  [*batchv1.Job] and [model.JobFinished] are parameters. *)

From stdpp Require Import base option list gmap strings.
From Stdlib Require Import ZArith DecimalString.

Local Open Scope Z_scope.

(** ** Package [model]: what the limiter uses of it *)

Module model.

(** Go [error] values.  A nil [error] is [None : option error]. *)
Inductive error : Type :=
| ErrStaleJob
| Canceled
| DeadlineExceeded
| errors_New (msg : string).

#[global] Instance error_eq_dec : EqDecision error.
Proof. solve_decision. Defined.

(** [model.Job]: the limiter reads [Uuid] (for logging) and [StaleCh].
    [StaleCh] is a receive-only channel that the producer of the job closes
    when the job data is too old; it is named here by a channel id. *)
Record Job : Type := mkJob { Uuid : string; StaleCh : nat }.

End model.

Import model.

(** ** Buffered channels of [struct{}] *)

Record chan : Type := mkChan { chan_cap : Z; chan_buf : list unit }.

(** [make(chan struct{}, n)] *)
Definition make_chan (n : Z) : chan := {| chan_cap := n; chan_buf := [] |}.

(** [len(c)] and [cap(c)] *)
Definition len (c : chan) : Z := Z.of_nat (length (chan_buf c)).
Definition cap (c : chan) : Z := chan_cap c.

(** A receive that is ready takes the oldest buffered value; [None] when the
    buffer is empty (the receive cannot proceed). *)
Definition chan_recv (c : chan) : option (unit * chan) :=
  match chan_buf c with
  | [] => None
  | x :: b => Some (x, {| chan_cap := chan_cap c; chan_buf := b |})
  end.

(** A send that is ready appends to the buffer; [None] when the buffer is
    full (the send cannot proceed). *)
Definition chan_send (c : chan) (x : unit) : option chan :=
  if bool_decide (len c < cap c)
  then Some {| chan_cap := chan_cap c; chan_buf := chan_buf c ++ [x] |}
  else None.

(** ** Package [limiter] *)

Module limiter.

(** *** metrics.go *)

Inductive counter : Type := onAddEvents | onUpdateEvents | onDeleteEvents.

(** The process-wide metrics.  [maxInFlightGauge] holds the integer whose
    [float64] conversion the gauge is set to; [tokenWaitDurationHistogram]
    counts the observations; [tokensAvailableFunc] records whether [New] has
    replaced the initial closure (which returns 0) by the one reading the
    bucket. *)
Record Metrics : Type := mkMetrics {
  maxInFlightGauge : Z;
  tokenWaitDurationHistogram : nat;
  tokensAvailableFunc : bool;
  onAddEvents_n : nat;
  onUpdateEvents_n : nat;
  onDeleteEvents_n : nat
}.

Definition metrics_init : Metrics :=
  {| maxInFlightGauge := 0; tokenWaitDurationHistogram := 0%nat;
     tokensAvailableFunc := false;
     onAddEvents_n := 0; onUpdateEvents_n := 0; onDeleteEvents_n := 0 |}.

Definition metrics_Inc (c : counter) (m : Metrics) : Metrics :=
  match c with
  | onAddEvents =>
      {| maxInFlightGauge := maxInFlightGauge m;
         tokenWaitDurationHistogram := tokenWaitDurationHistogram m;
         tokensAvailableFunc := tokensAvailableFunc m;
         onAddEvents_n := S (onAddEvents_n m);
         onUpdateEvents_n := onUpdateEvents_n m;
         onDeleteEvents_n := onDeleteEvents_n m |}
  | onUpdateEvents =>
      {| maxInFlightGauge := maxInFlightGauge m;
         tokenWaitDurationHistogram := tokenWaitDurationHistogram m;
         tokensAvailableFunc := tokensAvailableFunc m;
         onAddEvents_n := onAddEvents_n m;
         onUpdateEvents_n := S (onUpdateEvents_n m);
         onDeleteEvents_n := onDeleteEvents_n m |}
  | onDeleteEvents =>
      {| maxInFlightGauge := maxInFlightGauge m;
         tokenWaitDurationHistogram := tokenWaitDurationHistogram m;
         tokensAvailableFunc := tokensAvailableFunc m;
         onAddEvents_n := onAddEvents_n m;
         onUpdateEvents_n := onUpdateEvents_n m;
         onDeleteEvents_n := S (onDeleteEvents_n m) |}
  end.

Definition metrics_Observe (m : Metrics) : Metrics :=
  {| maxInFlightGauge := maxInFlightGauge m;
     tokenWaitDurationHistogram := S (tokenWaitDurationHistogram m);
     tokensAvailableFunc := tokensAvailableFunc m;
     onAddEvents_n := onAddEvents_n m;
     onUpdateEvents_n := onUpdateEvents_n m;
     onDeleteEvents_n := onDeleteEvents_n m |}.

(** *** The limiter and its constructor *)

(** [type MaxInFlight struct].  The [handler] field is the next link of the
    chain, an external collaborator: its replies are supplied by the
    environment (see [choice] below).  The [logger] field is left out. *)
Record MaxInFlight : Type := mkMaxInFlight {
  MaxInFlight_limit : Z;
  tokenBucket : chan
}.

(** [for range n { l.tokenBucket <- struct{}{} }]: [n] blocking sends, with
    no receiver around yet; [None] if one of them could not proceed. *)
Fixpoint fill (n : nat) (c : chan) : option chan :=
  match n with
  | O => Some c
  | S n' =>
      match chan_send c tt with
      | Some c' => fill n' c'
      | None => None
      end
  end.

Inductive New_result : Type :=
| Panicked (msg : string)
| Deadlocked
| Created (l : MaxInFlight) (m : Metrics).

(** [fmt.Sprintf("maxInFlight <= 0 (got %d)", maxInFlight)] *)
Definition panic_message (maxInFlight : Z) : string :=
  "maxInFlight <= 0 (got " +:+
    NilZero.string_of_int (Z.to_int maxInFlight) +:+ ")".

Definition New (m : Metrics) (maxInFlight : Z) : New_result :=
  if bool_decide (maxInFlight <= 0) then Panicked (panic_message maxInFlight)
  else
    let m1 :=
      {| maxInFlightGauge := maxInFlight;
         tokenWaitDurationHistogram := tokenWaitDurationHistogram m;
         tokensAvailableFunc := tokensAvailableFunc m;
         onAddEvents_n := onAddEvents_n m;
         onUpdateEvents_n := onUpdateEvents_n m;
         onDeleteEvents_n := onDeleteEvents_n m |} in
    match fill (Z.to_nat maxInFlight) (make_chan maxInFlight) with
    | None => Deadlocked
    | Some b =>
        Created {| MaxInFlight_limit := maxInFlight; tokenBucket := b |}
          {| maxInFlightGauge := maxInFlightGauge m1;
             tokenWaitDurationHistogram := tokenWaitDurationHistogram m1;
             tokensAvailableFunc := true;
             onAddEvents_n := onAddEvents_n m1;
             onUpdateEvents_n := onUpdateEvents_n m1;
             onDeleteEvents_n := onDeleteEvents_n m1 |}
    end.

(** *** Goroutines as programs

    A goroutine of the limiter is a finite tree of the operations it performs
    on what it shares with the others: the three [select] statements of the
    source, the call to the next handler, [context.Cause] and the metrics. *)

(** A [context.Context], named by an id. *)
Definition Context : Type := nat.

(** The cases of the [select] in [Handle], in source order. *)
Inductive select_case : Type := CaseCtxDone | CaseStale | CaseToken.

Inductive prog (R : Type) : Type :=
| Ret (r : R)
| SelectHandle (ctx : Context) (staleCh : nat) (k : select_case -> prog R)
    (* select { case <-ctx.Done(): case <-job.StaleCh: case <-l.tokenBucket: } *)
| ContextCause (ctx : Context) (k : option error -> prog R)
    (* context.Cause(ctx) *)
| NextHandle (ctx : Context) (job : Job) (k : option error -> prog R)
    (* l.handler.Handle(ctx, job) *)
| TryRecv (k : prog R)
    (* select { case <-l.tokenBucket: default: } *)
| TrySend (k : prog R)
    (* select { case l.tokenBucket <- struct{}{}: default: } *)
| Inc (c : counter) (k : prog R)
    (* c.Inc() *)
| Observe (k : prog R).
    (* tokenWaitDurationHistogram.Observe(...) *)

Arguments Ret {R} r.
Arguments SelectHandle {R} ctx staleCh k.
Arguments ContextCause {R} ctx k.
Arguments NextHandle {R} ctx job k.
Arguments TryRecv {R} k.
Arguments TrySend {R} k.
Arguments Inc {R} c k.
Arguments Observe {R} k.

Fixpoint bind {A B : Type} (p : prog A) (f : A -> prog B) : prog B :=
  match p with
  | Ret r => f r
  | SelectHandle ctx ch k => SelectHandle ctx ch (fun w => bind (k w) f)
  | ContextCause ctx k => ContextCause ctx (fun c => bind (k c) f)
  | NextHandle ctx job k => NextHandle ctx job (fun e => bind (k e) f)
  | TryRecv k => TryRecv (bind k f)
  | TrySend k => TrySend (bind k f)
  | Inc c k => Inc c (bind k f)
  | Observe k => Observe (bind k f)
  end.

#[global] Instance prog_ret : MRet prog := fun R r => Ret r.
#[global] Instance prog_bind : MBind prog := fun A B f p => bind p f.

(** [func (l *MaxInFlight) tryTakeToken()] *)
Definition tryTakeToken : prog unit := TryRecv (Ret tt).

(** [func (l *MaxInFlight) tryReturnToken()] *)
Definition tryReturnToken : prog unit := TrySend (Ret tt).

(** [func (l *MaxInFlight) Handle(ctx context.Context, job model.Job) error] *)
Definition Handle (ctx : Context) (job : Job) : prog (option error) :=
  SelectHandle ctx (StaleCh job) (fun won =>
    match won with
    | CaseCtxDone => ContextCause ctx Ret
    | CaseStale => Ret (Some ErrStaleJob)
    | CaseToken =>
        Observe (Ret tt) ;;
        err ← NextHandle ctx job Ret;
        match err with
        | Some e =>
            (* Oh well. Return the token. *)
            tryReturnToken ;;
            Ret (Some e)
        | None => Ret None
        end
    end).

(** *** What the goroutines share *)

(** The limiter, the metrics, the contexts cancelled so far (with the cause
    [context.Cause] reports) and the stale channels closed so far. *)
Record Shared : Type := mkShared {
  lim : MaxInFlight;
  metrics : Metrics;
  cancelled : gmap nat error;
  staleClosed : gset nat
}.

(** [len(l.tokenBucket)]: the tokens available. *)
Definition available (s : Shared) : Z := len (tokenBucket (lim s)).

(** [cap(l.tokenBucket)] *)
Definition capacity (s : Shared) : Z := cap (tokenBucket (lim s)).

Definition set_bucket (b : chan) (s : Shared) : Shared :=
  {| lim := {| MaxInFlight_limit := MaxInFlight_limit (lim s); tokenBucket := b |};
     metrics := metrics s;
     cancelled := cancelled s;
     staleClosed := staleClosed s |}.

Definition set_metrics (m : Metrics) (s : Shared) : Shared :=
  {| lim := lim s; metrics := m;
     cancelled := cancelled s; staleClosed := staleClosed s |}.

(** The [select] of [Handle] completing with case [won]: the case has to be
    ready ([None] otherwise), and its communication is performed.  A
    cancelled context's [Done] channel and a closed stale channel are always
    ready to receive from; the bucket is ready when it holds a token. *)
Definition do_SelectHandle (ctx : Context) (staleCh : nat) (won : select_case)
    (s : Shared) : option Shared :=
  match won with
  | CaseCtxDone =>
      if bool_decide (is_Some (cancelled s !! ctx)) then Some s else None
  | CaseStale =>
      if bool_decide (staleCh ∈ staleClosed s) then Some s else None
  | CaseToken =>
      match chan_recv (tokenBucket (lim s)) with
      | Some (_, b) => Some (set_bucket b s)
      | None => None
      end
  end.

(** [select { case <-l.tokenBucket: default: }] *)
Definition do_TryRecv (s : Shared) : Shared :=
  match chan_recv (tokenBucket (lim s)) with
  | Some (_, b) => set_bucket b s
  | None => s
  end.

(** [select { case l.tokenBucket <- struct{}{}: default: }] *)
Definition do_TrySend (s : Shared) : Shared :=
  match chan_send (tokenBucket (lim s)) tt with
  | Some b => set_bucket b s
  | None => s
  end.

(** What the goroutine does not decide itself: which ready case its [select]
    completes with (Go picks one of the ready cases at random) and what the
    next handler returns. *)
Record choice : Type := mkChoice { pick : select_case; reply : option error }.

(** One operation of a goroutine.  [None]: the goroutine has returned, or its
    [select] cannot complete with the picked case. *)
Definition head_step {R : Type} (c : choice) (p : prog R) (s : Shared) :
    option (prog R * Shared) :=
  match p with
  | Ret _ => None
  | SelectHandle ctx ch k =>
      match do_SelectHandle ctx ch (pick c) s with
      | Some s' => Some (k (pick c), s')
      | None => None
      end
  | ContextCause ctx k => Some (k (cancelled s !! ctx), s)
  | NextHandle ctx job k => Some (k (reply c), s)
  | TryRecv k => Some (k, do_TryRecv s)
  | TrySend k => Some (k, do_TrySend s)
  | Inc ctr k => Some (k, set_metrics (metrics_Inc ctr (metrics s)) s)
  | Observe k => Some (k, set_metrics (metrics_Observe (metrics s)) s)
  end.

(** A goroutine run to its return with nothing else running in between. *)
Fixpoint exec {R : Type} (p : prog R) (c : choice) (s : Shared) :
    option (R * Shared) :=
  match p with
  | Ret r => Some (r, s)
  | SelectHandle ctx ch k =>
      match do_SelectHandle ctx ch (pick c) s with
      | Some s' => exec (k (pick c)) c s'
      | None => None
      end
  | ContextCause ctx k => exec (k (cancelled s !! ctx)) c s
  | NextHandle ctx job k => exec (k (reply c)) c s
  | TryRecv k => exec k c (do_TryRecv s)
  | TrySend k => exec k c (do_TrySend s)
  | Inc ctr k => exec k c (set_metrics (metrics_Inc ctr (metrics s)) s)
  | Observe k => exec k c (set_metrics (metrics_Observe (metrics s)) s)
  end.

Section Informer.

(** [*batchv1.Job] objects and [model.JobFinished] come from outside this
    package. *)
Variable batchv1_Job : Type.
Variable JobFinished : batchv1_Job -> bool.

(** An [any] handed over by the informer: the nil interface, a
    [*batchv1.Job] (possibly a nil pointer), or a value of some other
    dynamic type (such as [cache.DeletedFinalStateUnknown]). *)
Inductive any : Type :=
| any_nil
| any_Job (p : option batchv1_Job)
| any_other (dynamicType : string).

(** the type assertion of [obj] to a [*batchv1.Job] pointer: [None] is the nil pointer. *)
Definition assert_Job (obj : any) : option batchv1_Job :=
  match obj with
  | any_Job p => p
  | _ => None
  end.

(** [func (l *MaxInFlight) OnAdd(obj any, inInitialList bool)] *)
Definition OnAdd (obj : any) (inInitialList : bool) : prog unit :=
  Inc onAddEvents (Ret tt) ;;
  match assert_Job obj with
  | None => Ret tt
  | Some job =>
      if negb inInitialList then
        (* After sync is finished, the limiter handler takes tokens directly. *)
        Ret tt
      else
        (if negb (JobFinished job) then tryTakeToken else Ret tt) ;;
        Ret tt
  end.

(** [func (l *MaxInFlight) OnUpdate(prev, curr any)] *)
Definition OnUpdate (prev curr : any) : prog unit :=
  Inc onUpdateEvents (Ret tt) ;;
  match assert_Job prev, assert_Job curr with
  | Some prevState, Some currState =>
      if negb (JobFinished prevState) && JobFinished currState then
        tryReturnToken ;;
        Ret tt
      else Ret tt
  | _, _ => Ret tt
  end.

(** [func (l *MaxInFlight) OnDelete(obj any)] *)
Definition OnDelete (obj : any) : prog unit :=
  Inc onDeleteEvents (Ret tt) ;;
  match assert_Job obj with
  | None => Ret tt
  | Some prevState =>
      (if negb (JobFinished prevState) then tryReturnToken else Ret tt) ;;
      Ret tt
  end.

(** *** Goroutines running interleaved *)

Inductive goroutine : Type :=
| GoHandle (p : prog (option error))
| GoEvent (p : prog unit).

(** The entry points other packages call. *)
Inductive call : Type :=
| CallHandle (ctx : Context) (job : Job)
| CallOnAdd (obj : any) (inInitialList : bool)
| CallOnUpdate (prev curr : any)
| CallOnDelete (obj : any).

Definition spawn (c : call) : goroutine :=
  match c with
  | CallHandle ctx job => GoHandle (Handle ctx job)
  | CallOnAdd obj inInitialList => GoEvent (OnAdd obj inInitialList)
  | CallOnUpdate prev curr => GoEvent (OnUpdate prev curr)
  | CallOnDelete obj => GoEvent (OnDelete obj)
  end.

Record System : Type := mkSystem {
  shared : Shared;
  goroutines : list goroutine
}.

Inductive label : Type :=
| Go (c : call)                          (* a new goroutine enters the package *)
| Cancel (ctx : Context) (cause : error) (* ctx is cancelled *)
| CloseStale (ch : nat)                  (* a job's StaleCh is closed *)
| Sched (tid : nat) (c : choice).        (* goroutine tid performs its next operation *)

Definition step_goroutine (c : choice) (g : goroutine) (s : Shared) :
    option (goroutine * Shared) :=
  match g with
  | GoHandle p =>
      match head_step c p s with
      | Some (p', s') => Some (GoHandle p', s')
      | None => None
      end
  | GoEvent p =>
      match head_step c p s with
      | Some (p', s') => Some (GoEvent p', s')
      | None => None
      end
  end.

(** A context keeps the cause of its first cancellation. *)
Definition do_Cancel (ctx : Context) (cause : error) (s : Shared) : Shared :=
  {| lim := lim s; metrics := metrics s;
     cancelled :=
       match cancelled s !! ctx with
       | Some _ => cancelled s
       | None => <[ctx := cause]> (cancelled s)
       end;
     staleClosed := staleClosed s |}.

Definition do_CloseStale (ch : nat) (s : Shared) : Shared :=
  {| lim := lim s; metrics := metrics s;
     cancelled := cancelled s;
     staleClosed := {[ch]} ∪ staleClosed s |}.

Definition step (lb : label) (w : System) : option System :=
  match lb with
  | Go c =>
      Some {| shared := shared w; goroutines := goroutines w ++ [spawn c] |}
  | Cancel ctx cause =>
      Some {| shared := do_Cancel ctx cause (shared w);
              goroutines := goroutines w |}
  | CloseStale ch =>
      Some {| shared := do_CloseStale ch (shared w);
              goroutines := goroutines w |}
  | Sched tid c =>
      match goroutines w !! tid with
      | Some g =>
          match step_goroutine c g (shared w) with
          | Some (g', s') =>
              Some {| shared := s'; goroutines := <[tid := g']> (goroutines w) |}
          | None => None
          end
      | None => None
      end
  end.

Fixpoint run (t : list label) (w : System) : option System :=
  match t with
  | [] => Some w
  | lb :: t' =>
      match step lb w with
      | Some w' => run t' w'
      | None => None
      end
  end.

(** The system right after [New] has returned [l]: nothing runs yet. *)
Definition initial (l : MaxInFlight) (m : Metrics)
    (can : gmap nat error) (closed : gset nat) : System :=
  {| shared := {| lim := l; metrics := m; cancelled := can; staleClosed := closed |};
     goroutines := [] |}.

(** *** Notions used in the statements *)

(** The bucket of [s] is well formed and has capacity [C]. *)
Definition bucket_ok (C : Z) (s : Shared) : Prop :=
  0 <= available s <= capacity s /\ capacity s = C.

(** The state in which [Handle] calls the next handler, when its [select]
    took a token out of [s]: the token is gone and the wait is observed. *)
Definition admitted (s1 : Shared) : Shared :=
  set_metrics (metrics_Observe (metrics s1)) s1.

(** The state after a callback has counted its event. *)
Definition counted (ctr : counter) (s : Shared) : Shared :=
  set_metrics (metrics_Inc ctr (metrics s)) s.

(** The rest of [Handle] once the next handler has returned [err]. *)
Definition handled (err : option error) : prog (option error) :=
  match err with
  | Some e => tryReturnToken ;; Ret (Some e)
  | None => Ret None
  end.

(** The rest of [Handle] at the call of the next handler. *)
Definition forwarding (ctx : Context) (job : Job) : prog (option error) :=
  err ← NextHandle ctx job Ret; handled err.

(** The rest of [Handle] right after its [select] has taken a token. *)
Definition token_taken (ctx : Context) (job : Job) : prog (option error) :=
  Observe (Ret tt) ;; forwarding ctx job.

(** Where a call of [Handle] that has taken its token can be, with the
    result it is bound to return once the next handler has replied. *)
Inductive past_select (ctx : Context) (job : Job) :
    prog (option error) -> option (option error) -> Prop :=
| past_token_taken : past_select ctx job (token_taken ctx job) None
| past_forwarding : past_select ctx job (forwarding ctx job) None
| past_handled err : past_select ctx job (handled err) (Some err)
| past_returned r : past_select ctx job (Ret r) (Some r).

(** The tokens goroutine [tid] takes out of the bucket, minus those it puts
    back, over the run [t] from [w]: the sum, over its own operations, of
    what each one removes from the number of available tokens. *)
Fixpoint taken_by (tid : nat) (t : list label) (w : System) : Z :=
  match t with
  | [] => 0
  | lb :: t' =>
      match step lb w with
      | Some w' =>
          match lb with
          | Sched tid' _ =>
              if decide (tid' = tid)
              then available (shared w) - available (shared w')
              else 0
          | _ => 0
          end + taken_by tid t' w'
      | None => 0
      end
  end.

(** A program none of whose operations is on the bucket. *)
Fixpoint idle {R : Type} (p : prog R) : Prop :=
  match p with
  | Ret _ => True
  | SelectHandle _ _ _ => False
  | ContextCause _ k => forall c, idle (k c)
  | NextHandle _ _ k => forall e, idle (k e)
  | TryRecv _ => False
  | TrySend _ => False
  | Inc _ k => idle k
  | Observe k => idle k
  end.

(** *** Sample inputs *)

Definition job0 : Job := {| Uuid := "job-0"; StaleCh := 7 |}.

(** A limiter of capacity [n] whose bucket holds the tokens [b], with the
    contexts [can] cancelled and the stale channels [closed] closed. *)
Definition sample (n : Z) (b : list unit) (can : gmap nat error)
    (closed : gset nat) : Shared :=
  {| lim := {| MaxInFlight_limit := n;
               tokenBucket := {| chan_cap := n; chan_buf := b |} |};
     metrics := metrics_init;
     cancelled := can;
     staleClosed := closed |}.

(** One token available, context 0 cancelled. *)
Definition ctx_cancelled : Shared := sample 1 [tt] {[ 0%nat := Canceled ]} ∅.

(** One token available, the stale channel of [job0] closed. *)
Definition job_stale : Shared := sample 1 [tt] ∅ {[ 7%nat ]}.

(** The select takes a token; the next handler returns [e]. *)
Definition token_then (e : option error) : choice :=
  {| pick := CaseToken; reply := e |}.

(** A call of [Handle] for [job0] is the only goroutine; one token is
    available. *)
Definition one_call : System :=
  {| shared := sample 1 [tt] ∅ ∅;
     goroutines := [GoHandle (Handle 0%nat job0)] |}.

(** After the call has taken its token: the job's stale channel is closed,
    then the call goes on until it has returned. *)
Definition stale_after_token (e : option error) : list label :=
  [CloseStale 7; Sched 0 (token_then e); Sched 0 (token_then e);
   Sched 0 (token_then e)].

(** A call of [Handle] takes a token, the informer reports the deletion of
    an unfinished job (which puts a token back), and then the next handler
    fails: the bucket is full when the call tries to put its token back. *)
Definition delete_while_handling (unfinished : batchv1_Job) : list label :=
  [Go (CallHandle 0%nat job0);
   Sched 0 (token_then (Some (errors_New "create failed")));
   Go (CallOnDelete (any_Job (Some unfinished)));
   Sched 1 (token_then None); Sched 1 (token_then None);
   Sched 0 (token_then (Some (errors_New "create failed")));
   Sched 0 (token_then (Some (errors_New "create failed")));
   Sched 0 (token_then (Some (errors_New "create failed")))].

(** Two calls of [Handle] for [job0] enter; the first takes a token and its
    next handler fails, so that it has its token still to put back. *)
Definition failing_call : list label :=
  [Go (CallHandle 0%nat job0); Go (CallHandle 0%nat job0);
   Sched 0 (token_then (Some (errors_New "create failed")));
   Sched 0 (token_then (Some (errors_New "create failed")));
   Sched 0 (token_then (Some (errors_New "create failed")))].

(** A call of [Handle] for [job0] is the only goroutine; the bucket is
    empty, nothing is cancelled or stale. *)
Definition waiting_call : System :=
  {| shared := sample 1 [] ∅ ∅;
     goroutines := [GoHandle (Handle 0%nat job0)] |}.

(** *** The informer's notifications, one after the other *)

(** What the informer tells its listener.  A listener gets its notifications
    one at a time, each callback returning before the next one starts. *)
Inductive event : Type :=
| Added (obj : any) (inInitialList : bool)
| Updated (prev curr : any)
| Deleted (obj : any).

Definition notify (e : event) : prog unit :=
  match e with
  | Added obj inInitialList => OnAdd obj inInitialList
  | Updated prev curr => OnUpdate prev curr
  | Deleted obj => OnDelete obj
  end.

Fixpoint notify_all (es : list event) : prog unit :=
  match es with
  | [] => Ret tt
  | e :: es' => notify e ;; notify_all es'
  end.

(** The initial list: every object that exists when the limiter registers is
    reported by [OnAdd] with [inInitialList] set. *)
Definition initial_list (objs : list any) : list event :=
  map (fun obj => Added obj true) objs.

(** [obj] is a job that is not finished. *)
Definition unfinished (obj : any) : bool :=
  match assert_Job obj with
  | Some job => negb (JobFinished job)
  | None => false
  end.

(** [obj] is a job that is finished. *)
Definition finished (obj : any) : bool :=
  match assert_Job obj with
  | Some job => JobFinished job
  | None => false
  end.

(** The state a notification leaves behind. *)
Definition notified (e : event) (s : Shared) : Shared :=
  match e with
  | Added obj inInitialList =>
      if inInitialList && unfinished obj
      then do_TryRecv (counted onAddEvents s)
      else counted onAddEvents s
  | Updated prev curr =>
      if unfinished prev && finished curr
      then do_TrySend (counted onUpdateEvents s)
      else counted onUpdateEvents s
  | Deleted obj =>
      if unfinished obj
      then do_TrySend (counted onDeleteEvents s)
      else counted onDeleteEvents s
  end.

Fixpoint count_unfinished (objs : list any) : nat :=
  match objs with
  | [] => O
  | obj :: objs' =>
      if unfinished obj then S (count_unfinished objs')
      else count_unfinished objs'
  end.

(** What the informer reports of one job after it has been created while
    the limiter listens: the addition, then each change of state, then the
    deletion with the last state known. *)
Fixpoint changes (prev : batchv1_Job) (later : list batchv1_Job) : list event :=
  match later with
  | [] => [Deleted (any_Job (Some prev))]
  | curr :: later' =>
      Updated (any_Job (Some prev)) (any_Job (Some curr)) :: changes curr later'
  end.

Definition lifecycle (first : batchv1_Job) (later : list batchv1_Job) :
    list event :=
  Added (any_Job (Some first)) false :: changes first later.

(** A finished job stays finished through the states [later]. *)
Fixpoint stays_finished (prev : batchv1_Job) (later : list batchv1_Job) : Prop :=
  match later with
  | [] => True
  | curr :: later' =>
      (JobFinished prev = true -> JobFinished curr = true) /\
      stays_finished curr later'
  end.

(** The updates that report the jobs [ps] finishing: each pair is a job's
    state before and after. *)
Definition finishing (ps : list (batchv1_Job * batchv1_Job)) : list event :=
  map (fun pq => Updated (any_Job (Some (fst pq))) (any_Job (Some (snd pq)))) ps.

(** The number of events of each kind. *)
Definition is_kind (ctr : counter) (e : event) : bool :=
  match ctr, e with
  | onAddEvents, Added _ _ => true
  | onUpdateEvents, Updated _ _ => true
  | onDeleteEvents, Deleted _ => true
  | _, _ => false
  end.

Fixpoint count_kind (ctr : counter) (es : list event) : nat :=
  match es with
  | [] => O
  | e :: es' => if is_kind ctr e then S (count_kind ctr es') else count_kind ctr es'
  end.

Definition counter_value (ctr : counter) (m : Metrics) : nat :=
  match ctr with
  | onAddEvents => onAddEvents_n m
  | onUpdateEvents => onUpdateEvents_n m
  | onDeleteEvents => onDeleteEvents_n m
  end.

(** *** The gauges *)


(** *** Calls of [Handle] only *)

(** Whether a goroutine holds a token: a call of [Handle] does from the
    moment its [select] has taken one (it then observes the wait, calls the
    next handler, and on an error has the token still to put back) and
    keeps it when it returns nil. *)
Definition holding (g : goroutine) : Z :=
  match g with
  | GoHandle (Observe _) => 1
  | GoHandle (NextHandle _ _ _) => 1
  | GoHandle (TrySend _) => 1
  | GoHandle (Ret None) => 1
  | _ => 0
  end.

Fixpoint held (gs : list goroutine) : Z :=
  match gs with
  | [] => 0
  | g :: gs' => holding g + held gs'
  end.

(** The goroutines that enter the package are calls of [Handle], none is a
    callback of the informer. *)
Definition only_Handle (lb : label) : Prop :=
  match lb with
  | Go (CallHandle _ _) => True
  | Go _ => False
  | _ => True
  end.

(** Where a call of [Handle] can be, in a state [s]. *)
Inductive in_Handle (s : Shared) : goroutine -> Prop :=
| in_select ctx job : in_Handle s (GoHandle (Handle ctx job))
| in_cause ctx :
    is_Some (cancelled s !! ctx) ->
    in_Handle s (GoHandle (ContextCause ctx Ret))
| in_failed e : in_Handle s (GoHandle (Ret (Some e)))
| in_token_taken ctx job : in_Handle s (GoHandle (token_taken ctx job))
| in_forwarding ctx job : in_Handle s (GoHandle (forwarding ctx job))
| in_handled err : in_Handle s (GoHandle (handled err)).

(** ** Facts *)

(** *** Channels *)

Lemma chan_recv_Some c x c' :
  chan_recv c = Some (x, c') -> len c' = len c - 1 /\ cap c' = cap c.
Proof.
  unfold chan_recv, len, cap. destruct c as [n [|y b]]; simpl; [done|].
  intros [= <- <-]; simpl. lia.
Qed.

Lemma chan_recv_None c : chan_recv c = None <-> len c = 0.
Proof.
  unfold chan_recv, len. destruct c as [n [|y b]]; simpl; split; (done || lia).
Qed.

Lemma chan_send_Some c x c' :
  chan_send c x = Some c' ->
  len c < cap c /\ len c' = len c + 1 /\ cap c' = cap c.
Proof.
  unfold chan_send. case_bool_decide as Hlt; [|done].
  intros [= <-]. split; [done|]. unfold len, cap; simpl.
  rewrite length_app; simpl. lia.
Qed.

Lemma chan_send_None c x : chan_send c x = None <-> cap c <= len c.
Proof.
  unfold chan_send. case_bool_decide; split; try done; lia.
Qed.

Lemma chan_send_ready c x : len c < cap c -> is_Some (chan_send c x).
Proof.
  intros Hlt. destruct (chan_send c x) eqn:E; [eauto|].
  apply chan_send_None in E. lia.
Qed.

Lemma fill_spec n c :
  len c + Z.of_nat n <= cap c ->
  exists c', fill n c = Some c' /\ len c' = len c + Z.of_nat n /\ cap c' = cap c.
Proof.
  revert c. induction n as [|n IH]; intros c Hle; simpl.
  - exists c. split; [done|]. lia.
  - destruct (chan_send_ready c tt) as [c1 Hc1]; [lia|].
    rewrite Hc1. apply chan_send_Some in Hc1 as (_ & Hl & Hc).
    destruct (IH c1) as (c' & Hf & Hl' & Hc'); [lia|].
    exists c'. split; [done|]. lia.
Qed.

(** *** The constructor *)

Lemma New_nonpositive m C : C <= 0 -> New m C = Panicked (panic_message C).
Proof. intros HC. unfold New. by rewrite bool_decide_eq_true_2. Qed.

Lemma New_positive m C :
  1 <= C ->
  exists l m', New m C = Created l m' /\
    len (tokenBucket l) = C /\ cap (tokenBucket l) = C /\
    MaxInFlight_limit l = C /\ maxInFlightGauge m' = C.
Proof.
  intros HC. unfold New. rewrite bool_decide_eq_false_2 by lia.
  destruct (fill_spec (Z.to_nat C) (make_chan C)) as (b & Hf & Hl & Hc).
  { unfold make_chan, len, cap; simpl. lia. }
  rewrite Hf. eexists _, _. split; [done|]. simpl.
  unfold make_chan, len, cap in *; simpl in *. lia.
Qed.

Lemma New_Created m C l m' :
  New m C = Created l m' ->
  1 <= C /\ len (tokenBucket l) = C /\ cap (tokenBucket l) = C.
Proof.
  intros HN. destruct (decide (C <= 0)) as [Hle|Hgt].
  - by rewrite New_nonpositive in HN.
  - destruct (New_positive m C) as (l0 & m0 & HN0 & ? & ? & _); [lia|].
    rewrite HN in HN0. injection HN0 as <- <-. lia.
Qed.

(** C8: constructing the limiter with a capacity of at most 0 panics (no
    limiter is made); constructing it with a capacity [C] of at least 1
    returns a limiter whose bucket has capacity [C] and holds [C] tokens. *)
Theorem New_capacity (m : Metrics) (C : Z) :
  (C <= 0 -> New m C = Panicked (panic_message C)) /\
  (1 <= C ->
   exists l m', New m C = Created l m' /\
     MaxInFlight_limit l = C /\
     cap (tokenBucket l) = C /\
     len (tokenBucket l) = C).
Proof.
  split.
  - apply New_nonpositive.
  - intros HC. destruct (New_positive m C HC) as (l & m' & HN & ? & ? & ? & _).
    by exists l, m'.
Qed.

(** *** The bucket stays within its capacity *)

Lemma do_TryRecv_available s :
  available (do_TryRecv s) = (if bool_decide (available s = 0) then available s
                              else available s - 1) /\
  capacity (do_TryRecv s) = capacity s.
Proof.
  unfold do_TryRecv, available, capacity.
  destruct (chan_recv (tokenBucket (lim s))) as [[x b]|] eqn:E.
  - apply chan_recv_Some in E as [Hl Hc]. simpl.
    case_bool_decide; [|done]. unfold len in *. lia.
  - apply chan_recv_None in E. by rewrite bool_decide_eq_true_2.
Qed.

Lemma do_TrySend_available s :
  available (do_TrySend s) = (if bool_decide (available s < capacity s)
                              then available s + 1 else available s) /\
  capacity (do_TrySend s) = capacity s.
Proof.
  unfold do_TrySend, available, capacity.
  destruct (chan_send (tokenBucket (lim s)) tt) as [b|] eqn:E.
  - apply chan_send_Some in E as (Hlt & Hl & Hc). simpl.
    by rewrite bool_decide_eq_true_2.
  - apply chan_send_None in E. by rewrite bool_decide_eq_false_2 by lia.
Qed.

Lemma do_SelectHandle_available ctx ch won s s' :
  do_SelectHandle ctx ch won s = Some s' ->
  available s' = (match won with CaseToken => available s - 1 | _ => available s end) /\
  capacity s' = capacity s /\
  (match won with CaseToken => 0 < available s | _ => s' = s end).
Proof.
  unfold do_SelectHandle, available, capacity. destruct won.
  - case_bool_decide; [|done]. by intros [= <-].
  - case_bool_decide; [|done]. by intros [= <-].
  - destruct (chan_recv (tokenBucket (lim s))) as [[x b]|] eqn:E; [|done].
    intros [= <-]. apply chan_recv_Some in E as [Hl Hc]. simpl.
    unfold len in *. lia.
Qed.

Lemma available_set_metrics m s : available (set_metrics m s) = available s.
Proof. done. Qed.

Lemma capacity_set_metrics m s : capacity (set_metrics m s) = capacity s.
Proof. done. Qed.

Lemma head_step_bucket_ok {R} C c (p p' : prog R) s s' :
  head_step c p s = Some (p', s') -> bucket_ok C s -> bucket_ok C s'.
Proof.
  unfold bucket_ok. intros Hs [Hwf Hcap]. destruct p; simpl in Hs.
  - done.
  - destruct (do_SelectHandle ctx staleCh (pick c) s) as [s1|] eqn:E; [|done].
    injection Hs as <- <-.
    apply do_SelectHandle_available in E as (Ha & Hc & Hr).
    destruct (pick c); subst; lia.
  - by injection Hs as <- <-.
  - by injection Hs as <- <-.
  - injection Hs as <- <-.
    destruct (do_TryRecv_available s) as [Ha Hc]. rewrite Ha, Hc.
    case_bool_decide; lia.
  - injection Hs as <- <-.
    destruct (do_TrySend_available s) as [Ha Hc]. rewrite Ha, Hc.
    case_bool_decide; lia.
  - by injection Hs as <- <-.
  - by injection Hs as <- <-.
Qed.

Lemma step_bucket_ok C lb w w' :
  step lb w = Some w' -> bucket_ok C (shared w) -> bucket_ok C (shared w').
Proof.
  intros Hs Hok. destruct lb as [cl|ctx cause|ch|tid c]; simpl in Hs.
  - by injection Hs as <-.
  - by injection Hs as <-.
  - by injection Hs as <-.
  - destruct (goroutines w !! tid) as [g|]; [|done].
    destruct (step_goroutine c g (shared w)) as [[g' s']|] eqn:E; [|done].
    injection Hs as <-. simpl.
    destruct g as [p|p]; simpl in E;
      destruct (head_step c p (shared w)) as [[p' s1]|] eqn:E1; try done;
      injection E as <- <-; by eapply head_step_bucket_ok.
Qed.

Lemma run_bucket_ok C t w w' :
  run t w = Some w' -> bucket_ok C (shared w) -> bucket_ok C (shared w').
Proof.
  revert w. induction t as [|lb t IH]; intros w Hr Hok; simpl in Hr.
  - by injection Hr as <-.
  - destruct (step lb w) as [w1|] eqn:E; [|done].
    eapply IH; [done|]. by eapply step_bucket_ok.
Qed.

Lemma exec_tryReturnToken_full c s :
  available s = capacity s -> exec tryReturnToken c s = Some (tt, s).
Proof.
  intros Hfull. simpl. unfold do_TrySend.
  destruct (chan_send (tokenBucket (lim s)) tt) as [b|] eqn:E; [|done].
  apply chan_send_Some in E as (Hlt & _). unfold available, capacity in Hfull. lia.
Qed.

(** C1: from the state [New] leaves behind, whatever goroutines enter
    [Handle], [OnAdd], [OnUpdate] and [OnDelete] and however their
    operations and the cancellations interleave, the number of available
    tokens stays between 0 and the capacity; and in any of these states where
    the bucket is full, [tryReturnToken] returns at once and changes
    nothing. *)
Theorem available_within_capacity (m : Metrics) (C : Z) (l : MaxInFlight)
    (m' : Metrics) (can : gmap nat error) (closed : gset nat)
    (t : list label) (w : System) :
  New m C = Created l m' ->
  run t (initial l m' can closed) = Some w ->
  0 <= available (shared w) <= C /\
  capacity (shared w) = C /\
  (available (shared w) = C ->
   forall c, exec tryReturnToken c (shared w) = Some (tt, shared w)).
Proof.
  intros HN Hr. apply New_Created in HN as (HC & Hl & Hc).
  assert (bucket_ok C (shared w)) as [Hwf Hcap].
  { eapply run_bucket_ok; [done|]. unfold bucket_ok, available, capacity.
    simpl. lia. }
  split; [lia|]. split; [done|].
  intros Hfull c. apply exec_tryReturnToken_full. lia.
Qed.

(** *** One goroutine among the others *)

Lemma step_other_goroutine lb w w' tid g :
  step lb w = Some w' ->
  (forall c, lb <> Sched tid c) ->
  goroutines w !! tid = Some g ->
  goroutines w' !! tid = Some g.
Proof.
  intros Hs Hne Hg. destruct lb as [cl|ctx cause|ch|tid' c]; simpl in Hs.
  - injection Hs as <-. simpl. by apply lookup_app_l_Some.
  - by injection Hs as <-.
  - by injection Hs as <-.
  - destruct (goroutines w !! tid') as [g0|]; [|done].
    destruct (step_goroutine c g0 (shared w)) as [[g' s']|]; [|done].
    injection Hs as <-. simpl.
    rewrite list_lookup_insert_ne; [done|]. intros ->. by apply (Hne c).
Qed.

Lemma step_own_goroutine tid c w w' p :
  step (Sched tid c) w = Some w' ->
  goroutines w !! tid = Some (GoHandle p) ->
  exists p' s', head_step c p (shared w) = Some (p', s') /\
    shared w' = s' /\ goroutines w' !! tid = Some (GoHandle p').
Proof.
  intros Hs Hg. simpl in Hs. rewrite Hg in Hs. simpl in Hs.
  destruct (head_step c p (shared w)) as [[p' s']|]; [|done].
  injection Hs as <-. exists p', s'. simpl. split; [done|]. split; [done|].
  apply list_lookup_insert_eq. by eapply lookup_lt_Some.
Qed.

Lemma label_Sched_dec tid lb :
  {c | lb = Sched tid c} + {forall c, lb <> Sched tid c}.
Proof.
  destruct lb as [cl|ctx cause|ch|tid' c]; try (right; by intros).
  destruct (decide (tid' = tid)) as [->|Hne]; [left; by exists c|].
  right. intros c' [= ? ?]. done.
Qed.

Lemma taken_by_own tid c t w w' :
  step (Sched tid c) w = Some w' ->
  taken_by tid (Sched tid c :: t) w =
    available (shared w) - available (shared w') + taken_by tid t w'.
Proof.
  intros Hs. cbn [taken_by]. rewrite Hs. by rewrite decide_True.
Qed.

Lemma taken_by_other tid lb t w w' :
  step lb w = Some w' ->
  (forall c, lb <> Sched tid c) ->
  taken_by tid (lb :: t) w = taken_by tid t w'.
Proof.
  intros Hs Hne. cbn [taken_by]. rewrite Hs.
  destruct lb as [cl|ctx cause|ch|tid' c]; try done.
  rewrite decide_False; [done|]. intros ->. by apply (Hne c).
Qed.

Lemma head_step_idle {R} c (p p' : prog R) s s' :
  head_step c p s = Some (p', s') ->
  idle p ->
  idle p' /\ available s' = available s.
Proof.
  destruct p; simpl; try done; intros [= <- <-] Hi; by split.
Qed.

(** A goroutine that has no operation on the bucket left takes nothing from
    it and puts nothing back, whatever runs in between. *)
Lemma run_idle tid t : forall w w2 p,
  run t w = Some w2 ->
  goroutines w !! tid = Some (GoHandle p) ->
  idle p ->
  taken_by tid t w = 0.
Proof.
  induction t as [|lb t IH]; intros w w2 p Hr Hg Hi; [done|].
  cbn [run] in Hr. destruct (step lb w) as [w1|] eqn:Hs; [|done].
  destruct (label_Sched_dec tid lb) as [[c ->]|Hne].
  - destruct (step_own_goroutine _ _ _ _ _ Hs Hg) as (p' & s' & Hh & Hsh & Hg').
    destruct (head_step_idle _ _ _ _ _ Hh Hi) as [Hi' Ha].
    rewrite (taken_by_own _ _ _ _ _ Hs), Hsh, Ha, (IH _ _ _ Hr Hg' Hi'). lia.
  - rewrite (taken_by_other _ _ _ _ _ Hs Hne).
    eapply IH; [done| |done]. by eapply step_other_goroutine.
Qed.

Lemma head_step_cancelled {R} c (p p' : prog R) s s' :
  head_step c p s = Some (p', s') -> cancelled s' = cancelled s.
Proof.
  destruct p; simpl; try (by intros [= <- <-]).
  - destruct (do_SelectHandle ctx staleCh (pick c) s) as [s1|] eqn:E; [|done].
    intros [= <- <-]. unfold do_SelectHandle in E.
    destruct (pick c); repeat case_bool_decide; simplify_eq; try done.
    by destruct (chan_recv (tokenBucket (lim s))) as [[x b]|]; simplify_eq.
  - intros [= <- <-]. unfold do_TryRecv.
    by destruct (chan_recv (tokenBucket (lim s))) as [[x b]|].
  - intros [= <- <-]. unfold do_TrySend.
    by destruct (chan_send (tokenBucket (lim s)) tt).
Qed.

(** A cancelled context stays cancelled, with the same cause. *)
Lemma step_cancelled lb w w' ctx cause :
  step lb w = Some w' ->
  cancelled (shared w) !! ctx = Some cause ->
  cancelled (shared w') !! ctx = Some cause.
Proof.
  intros Hs Hc. destruct lb as [cl|ctx' cause'|ch|tid c]; simpl in Hs.
  - by injection Hs as <-.
  - injection Hs as <-. simpl.
    destruct (cancelled (shared w) !! ctx') eqn:E; [done|].
    rewrite lookup_insert_ne; [done|]. intros ->.
    pose proof (eq_trans (eq_sym E) Hc). discriminate.
  - by injection Hs as <-.
  - destruct (goroutines w !! tid) as [g|]; [|done].
    destruct (step_goroutine c g (shared w)) as [[g' s']|] eqn:E; [|done].
    injection Hs as <-. simpl.
    destruct g as [p|p]; simpl in E;
      destruct (head_step c p (shared w)) as [[p' s1]|] eqn:E1; try done;
      injection E as <- <-; by rewrite (head_step_cancelled _ _ _ _ _ E1).
Qed.

(** A goroutine that has returned stays as it is. *)
Lemma run_returned tid t : forall w w2 (r : option error),
  run t w = Some w2 ->
  goroutines w !! tid = Some (GoHandle (Ret r)) ->
  goroutines w2 !! tid = Some (GoHandle (Ret r)).
Proof.
  induction t as [|lb t IH]; intros w w2 r Hr Hg; cbn [run] in Hr.
  - by injection Hr as <-.
  - destruct (step lb w) as [w1|] eqn:Hs; [|done].
    destruct (label_Sched_dec tid lb) as [[c ->]|Hne].
    + by destruct (step_own_goroutine _ _ _ _ _ Hs Hg) as (p' & s' & Hh & _).
    + eapply IH; [done|]. by eapply step_other_goroutine.
Qed.

(** A goroutine about to return [context.Cause(ctx)] of a cancelled context
    returns its cause, whatever runs in between. *)
Lemma run_ContextCause tid ctx cause t : forall w w2 r,
  run t w = Some w2 ->
  cancelled (shared w) !! ctx = Some cause ->
  goroutines w !! tid = Some (GoHandle (ContextCause ctx Ret)) ->
  goroutines w2 !! tid = Some (GoHandle (Ret r)) ->
  r = Some cause.
Proof.
  induction t as [|lb t IH]; intros w w2 r Hr Hc Hg Hret; cbn [run] in Hr.
  - injection Hr as <-. by rewrite Hg in Hret.
  - destruct (step lb w) as [w1|] eqn:Hs; [|done].
    pose proof (step_cancelled _ _ _ _ _ Hs Hc) as Hc1.
    destruct (label_Sched_dec tid lb) as [[c ->]|Hne].
    + destruct (step_own_goroutine _ _ _ _ _ Hs Hg) as (p' & s' & Hh & _ & Hg').
      simpl in Hh. injection Hh as <- <-. rewrite Hc in Hg'.
      pose proof (run_returned _ _ _ _ _ Hr Hg') as Hg2.
      rewrite Hg2 in Hret. by injection Hret as <-.
    + eapply IH; [done..| |done]. by eapply step_other_goroutine.
Qed.

(** *** [Handle] past its [select] *)

Lemma head_step_Handle_token ctx job c s p1 s1 :
  pick c = CaseToken ->
  head_step c (Handle ctx job) s = Some (p1, s1) ->
  p1 = token_taken ctx job /\ available s1 = available s - 1.
Proof.
  intros Hpick. simpl. rewrite Hpick.
  destruct (do_SelectHandle ctx (StaleCh job) CaseToken s) as [s'|] eqn:E; [|done].
  intros [= <- <-]. split; [done|].
  by apply do_SelectHandle_available in E as (? & _).
Qed.

(** A goroutine past the [select] of [Handle] is never held up: whatever the
    state, its next operation can be performed. *)
Lemma past_select_enabled ctx job p pending c s :
  past_select ctx job p pending ->
  p = Ret None \/ (exists e, p = Ret (Some e)) \/ is_Some (head_step c p s).
Proof.
  intros Hp. destruct Hp as [| |[e|]|[e|]]; simpl; eauto.
Qed.

Lemma run_past_select ctx job tid t : forall w w2 p pending r,
  run t w = Some w2 ->
  goroutines w !! tid = Some (GoHandle p) ->
  past_select ctx job p pending ->
  goroutines w2 !! tid = Some (GoHandle (Ret r)) ->
  match pending with
  | Some err => r = err
  | None =>
      exists t1 c t2 wa,
        t = t1 ++ Sched tid c :: t2 /\
        run t1 w = Some wa /\
        goroutines wa !! tid = Some (GoHandle (forwarding ctx job)) /\
        r = reply c
  end.
Proof.
  induction t as [|lb t IH]; intros w w2 p pending r Hr Hg Hp Hret; simpl in Hr.
  - injection Hr as <-. rewrite Hg in Hret. injection Hret as ->.
    inversion Hp as [| |err Herr|]; subst; [|done].
    destruct err as [e|]; simpl in Herr; [done|]. by injection Herr as <-.
  - destruct (step lb w) as [w1|] eqn:Hs; [|done].
    destruct (label_Sched_dec tid lb) as [[c ->]|Hne].
    + destruct (step_own_goroutine _ _ _ _ _ Hs Hg) as (p' & s' & Hh & _ & Hg').
      destruct Hp as [| |err|r0]; [| | |done].
      * (* the wait is observed *)
        injection Hh as <- <-.
        destruct (IH _ _ _ None r Hr Hg' (past_forwarding ctx job) Hret)
          as (t1 & c' & t2 & wa & -> & Hr1 & Hga & ->).
        exists (Sched tid c :: t1), c', t2, wa.
        split; [done|]. split; [|done]. cbn [run app]. by rewrite Hs.
      * (* the next handler is called and replies *)
        injection Hh as <- <-.
        exists [], c, t, w. split; [done|]. split; [done|]. split; [done|].
        exact (IH _ _ _ (Some (reply c)) r Hr Hg' (past_handled ctx job _) Hret).
      * (* the token goes back, or the call has returned *)
        destruct err as [e|]; [|done]. injection Hh as <- <-.
        exact (IH _ _ _ (Some (Some e)) r Hr Hg'
                 (past_returned ctx job (Some e)) Hret).
    + pose proof (step_other_goroutine _ _ _ _ _ Hs Hne Hg) as Hg'.
      pose proof (IH _ _ _ pending r Hr Hg' Hp Hret) as HI.
      destruct pending as [err|]; [done|].
      destruct HI as (t1 & c' & t2 & wa & -> & Hr1 & Hga & ->).
      exists (lb :: t1), c', t2, wa.
      split; [done|]. split; [|done]. cbn [run app]. by rewrite Hs.
Qed.

Lemma run_past_select_stays ctx job tid t : forall w w2 p pending,
  run t w = Some w2 ->
  goroutines w !! tid = Some (GoHandle p) ->
  past_select ctx job p pending ->
  exists p2 pending2,
    goroutines w2 !! tid = Some (GoHandle p2) /\ past_select ctx job p2 pending2.
Proof.
  induction t as [|lb t IH]; intros w w2 p pending Hr Hg Hp; simpl in Hr.
  - injection Hr as <-. eauto.
  - destruct (step lb w) as [w1|] eqn:Hs; [|done].
    destruct (label_Sched_dec tid lb) as [[c ->]|Hne].
    + destruct (step_own_goroutine _ _ _ _ _ Hs Hg) as (p' & s' & Hh & _ & Hg').
      destruct Hp as [| |err|r0]; [| | |done].
      * injection Hh as <- <-. eapply IH; [done..|]. apply past_forwarding.
      * injection Hh as <- <-. eapply IH; [done..|]. apply past_handled.
      * destruct err as [e|]; [|done]. injection Hh as <- <-.
        eapply IH; [done..|]. apply past_returned.
    + eapply IH; [done| |done]. by eapply step_other_goroutine.
Qed.

Lemma run_past_select_taken ctx job tid t : forall w w2 p pending r,
  run t w = Some w2 ->
  goroutines w !! tid = Some (GoHandle p) ->
  past_select ctx job p pending ->
  goroutines w2 !! tid = Some (GoHandle (Ret r)) ->
  -1 <= taken_by tid t w <= 0 /\ (r = None -> taken_by tid t w = 0).
Proof.
  induction t as [|lb t IH]; intros w w2 p pending r Hr Hg Hp Hret.
  - simpl. split; [lia|done].
  - cbn [run] in Hr. destruct (step lb w) as [w1|] eqn:Hs; [|done].
    destruct (label_Sched_dec tid lb) as [[c ->]|Hne].
    + destruct (step_own_goroutine _ _ _ _ _ Hs Hg) as (p' & s' & Hh & Hsh & Hg').
      rewrite (taken_by_own _ _ _ _ _ Hs), Hsh.
      destruct Hp as [| |err|r0]; [| | |done].
      * injection Hh as <- <-. rewrite available_set_metrics.
        destruct (IH _ _ _ _ r Hr Hg' (past_forwarding ctx job) Hret) as [Hb Hz].
        split; [lia|]. intros Hn. specialize (Hz Hn). lia.
      * injection Hh as <- <-.
        destruct (IH _ _ _ _ r Hr Hg' (past_handled ctx job _) Hret) as [Hb Hz].
        split; [lia|]. intros Hn. specialize (Hz Hn). lia.
      * destruct err as [e|]; [|done]. injection Hh as <- <-.
        rewrite (run_idle tid t _ _ _ Hr Hg' I).
        pose proof (run_returned _ _ _ _ _ Hr Hg') as Hg2.
        rewrite Hg2 in Hret. injection Hret as <-.
        destruct (do_TrySend_available (shared w)) as [Ha _]. rewrite Ha.
        split; [case_bool_decide; lia|done].
    + rewrite (taken_by_other _ _ _ _ _ Hs Hne).
      eapply IH; [done| |done..]. by eapply step_other_goroutine.
Qed.

(** *** [Handle], alone and among other goroutines *)

Lemma head_step_Handle_ctx ctx job c s p1 s1 :
  pick c = CaseCtxDone ->
  head_step c (Handle ctx job) s = Some (p1, s1) ->
  p1 = ContextCause ctx Ret /\ s1 = s.
Proof.
  intros Hpick. simpl. rewrite Hpick. simpl.
  case_bool_decide; [|done]. by intros [= <- <-].
Qed.

Lemma head_step_Handle_stale ctx job c s p1 s1 :
  pick c = CaseStale ->
  head_step c (Handle ctx job) s = Some (p1, s1) ->
  p1 = Ret (Some ErrStaleJob) /\ s1 = s.
Proof.
  intros Hpick. simpl. rewrite Hpick. simpl.
  case_bool_decide; [|done]. by intros [= <- <-].
Qed.

(** C2: when the context is cancelled and the [select] of [Handle] completes
    with the [ctx.Done()] case, [Handle] returns the cause of the
    cancellation and takes no token.  Run alone, the call returns the cause
    and leaves everything shared, the bucket included, as it was; run among
    other goroutines, none of its operations changes the number of available
    tokens, and when it has returned it has returned the cause. *)
Theorem Handle_ctx_cancelled (ctx : Context) (job : Job) (c : choice)
    (s : Shared) (cause : error) :
  cancelled s !! ctx = Some cause ->
  pick c = CaseCtxDone ->
  exec (Handle ctx job) c s = Some (Some cause, s) /\
  (forall (w : System) (tid : nat) (t : list label) (w2 : System),
     shared w = s ->
     goroutines w !! tid = Some (GoHandle (Handle ctx job)) ->
     run (Sched tid c :: t) w = Some w2 ->
     taken_by tid (Sched tid c :: t) w = 0 /\
     (forall r, goroutines w2 !! tid = Some (GoHandle (Ret r)) ->
                r = Some cause)).
Proof.
  intros Hcan Hpick. split.
  - simpl. rewrite Hpick. simpl.
    rewrite bool_decide_eq_true_2 by (rewrite Hcan; eauto).
    by rewrite ?Hpick, ?Hcan.
  - intros w tid t w2 Hsh Hg Hr. cbn [run] in Hr.
    destruct (step (Sched tid c) w) as [w1|] eqn:Hs; [|done].
    destruct (step_own_goroutine _ _ _ _ _ Hs Hg) as (p1 & s1 & Hh & Hsh1 & Hg1).
    apply (head_step_Handle_ctx _ _ _ _ _ _ Hpick) in Hh as [-> ->].
    split.
    + rewrite (taken_by_own _ _ _ _ _ Hs), Hsh1.
      rewrite (run_idle tid t _ _ _ Hr Hg1); [lia|]. by intros ?.
    + intros r Hret. eapply run_ContextCause; [done| |done..].
      by rewrite Hsh1, Hsh.
Qed.

(** C3: when the job's stale channel is closed and the [select] of [Handle]
    completes with that case, [Handle] returns [model.ErrStaleJob] and takes
    no token.  Run alone, the call returns that error and leaves everything
    shared, the bucket included, as it was; run among other goroutines, none
    of its operations changes the number of available tokens, and it has
    returned that error. *)
Theorem Handle_job_stale (ctx : Context) (job : Job) (c : choice)
    (s : Shared) :
  StaleCh job ∈ staleClosed s ->
  pick c = CaseStale ->
  exec (Handle ctx job) c s = Some (Some ErrStaleJob, s) /\
  (forall (w : System) (tid : nat) (t : list label) (w2 : System),
     shared w = s ->
     goroutines w !! tid = Some (GoHandle (Handle ctx job)) ->
     run (Sched tid c :: t) w = Some w2 ->
     taken_by tid (Sched tid c :: t) w = 0 /\
     goroutines w2 !! tid = Some (GoHandle (Ret (Some ErrStaleJob)))).
Proof.
  intros Hst Hpick. split.
  - simpl. rewrite Hpick. simpl.
    rewrite bool_decide_eq_true_2 by done. by rewrite ?Hpick.
  - intros w tid t w2 Hsh Hg Hr. cbn [run] in Hr.
    destruct (step (Sched tid c) w) as [w1|] eqn:Hs; [|done].
    destruct (step_own_goroutine _ _ _ _ _ Hs Hg) as (p1 & s1 & Hh & Hsh1 & Hg1).
    apply (head_step_Handle_stale _ _ _ _ _ _ Hpick) in Hh as [-> ->].
    split.
    + rewrite (taken_by_own _ _ _ _ _ Hs), Hsh1.
      rewrite (run_idle tid t _ _ _ Hr Hg1); [lia|done].
    + by eapply run_returned.
Qed.

Lemma exec_Handle_token ctx job c s s1 :
  pick c = CaseToken ->
  do_SelectHandle ctx (StaleCh job) CaseToken s = Some s1 ->
  exec (Handle ctx job) c s =
    match reply c with
    | Some e => Some (Some e, do_TrySend (admitted s1))
    | None => Some (None, admitted s1)
    end.
Proof.
  intros Hpick Hsel. simpl. rewrite Hpick, Hsel. simpl.
  by destruct (reply c).
Qed.

(** C4: when the [select] of [Handle] completes by taking a token, the job
    goes to the next handler.  If that returns an error [e], [Handle] does a
    non-blocking send of one token to the bucket and returns [e]; run alone,
    this brings the number of available tokens back to what it was.  If the
    next handler returns nil, [Handle] returns nil and sends nothing: one
    token less is available than before the call.  Among other goroutines:
    a call that has returned nil has taken exactly one token and put none
    back; a call that has returned an error has put back at most the one it
    took (none if the bucket was full by then). *)
Theorem Handle_token_acquired (ctx : Context) (job : Job) (c : choice)
    (s : Shared) :
  0 < available s <= capacity s ->
  pick c = CaseToken ->
  (exists s1,
     do_SelectHandle ctx (StaleCh job) CaseToken s = Some s1 /\
     available s1 = available s - 1 /\
     match reply c with
     | Some e =>
         exec (Handle ctx job) c s = Some (Some e, do_TrySend (admitted s1)) /\
         available (do_TrySend (admitted s1)) = available s
     | None =>
         exec (Handle ctx job) c s = Some (None, admitted s1) /\
         available (admitted s1) = available s - 1
     end) /\
  (forall (w : System) (tid : nat) (t : list label) (w2 : System) r,
     shared w = s ->
     goroutines w !! tid = Some (GoHandle (Handle ctx job)) ->
     run (Sched tid c :: t) w = Some w2 ->
     goroutines w2 !! tid = Some (GoHandle (Ret r)) ->
     match r with
     | None => taken_by tid (Sched tid c :: t) w = 1
     | Some e => 0 <= taken_by tid (Sched tid c :: t) w <= 1
     end).
Proof.
  intros Hav Hpick. split.
  - destruct (do_SelectHandle ctx (StaleCh job) CaseToken s) as [s1|] eqn:Hsel.
    + exists s1. pose proof (exec_Handle_token ctx job c s s1 Hpick Hsel) as He.
      apply do_SelectHandle_available in Hsel as (Ha & Hc & _).
      split; [done|]. split; [done|].
      destruct (reply c) as [e|]; (split; [done|]).
      * destruct (do_TrySend_available (admitted s1)) as [Ha' _].
        rewrite Ha'. unfold admitted.
        rewrite available_set_metrics, capacity_set_metrics.
        rewrite bool_decide_eq_true_2 by lia. lia.
      * unfold admitted. by rewrite available_set_metrics.
    + exfalso. unfold do_SelectHandle in Hsel.
      destruct (chan_recv (tokenBucket (lim s))) as [[x b]|] eqn:E; [done|].
      apply chan_recv_None in E. unfold available in Hav. lia.
  - intros w tid t w2 r Hsh Hg Hr Hret. cbn [run] in Hr.
    destruct (step (Sched tid c) w) as [w1|] eqn:Hs; [|done].
    destruct (step_own_goroutine _ _ _ _ _ Hs Hg) as (p1 & s1 & Hh & Hsh1 & Hg1).
    apply (head_step_Handle_token _ _ _ _ _ _ Hpick) in Hh as [-> Ha].
    rewrite (taken_by_own _ _ _ _ _ Hs), Hsh1, Ha.
    destruct (run_past_select_taken ctx job tid t _ _ _ _ r Hr Hg1
                (past_token_taken ctx job) Hret) as [Hb Hz].
    destruct r as [e|]; [lia|]. specialize (Hz eq_refl). lia.
Qed.

(** *** The informer callbacks run on their own *)

Lemma exec_OnAdd obj inInitialList c s :
  exec (OnAdd obj inInitialList) c s =
    Some (tt,
      match assert_Job obj with
      | Some job =>
          if inInitialList && negb (JobFinished job)
          then do_TryRecv (counted onAddEvents s)
          else counted onAddEvents s
      | None => counted onAddEvents s
      end).
Proof.
  unfold OnAdd. simpl. destruct (assert_Job obj) as [job|]; [|done].
  destruct inInitialList; [|done]. simpl.
  by destruct (JobFinished job).
Qed.

Lemma exec_OnUpdate prev curr c s :
  exec (OnUpdate prev curr) c s =
    Some (tt,
      match assert_Job prev, assert_Job curr with
      | Some prevState, Some currState =>
          if negb (JobFinished prevState) && JobFinished currState
          then do_TrySend (counted onUpdateEvents s)
          else counted onUpdateEvents s
      | _, _ => counted onUpdateEvents s
      end).
Proof.
  unfold OnUpdate. simpl.
  destruct (assert_Job prev) as [p|]; [|done].
  destruct (assert_Job curr) as [q|]; [|done].
  by destruct (JobFinished p), (JobFinished q).
Qed.

Lemma exec_OnDelete obj c s :
  exec (OnDelete obj) c s =
    Some (tt,
      match assert_Job obj with
      | Some prevState =>
          if negb (JobFinished prevState)
          then do_TrySend (counted onDeleteEvents s)
          else counted onDeleteEvents s
      | None => counted onDeleteEvents s
      end).
Proof.
  unfold OnDelete. simpl. destruct (assert_Job obj) as [p|]; [|done].
  by destruct (JobFinished p).
Qed.

(** C5: [OnAdd] with a [*batchv1.Job]: during the initial list and for a job
    that is not finished it does a non-blocking receive on the bucket, which
    takes one token, or nothing if the bucket is empty; for a finished job
    of the initial list and for any job added later the number of available
    tokens stays as it was. *)
Theorem OnAdd_job (job : batchv1_Job) (inInitialList : bool) (c : choice)
    (s : Shared) :
  exists s',
    exec (OnAdd (any_Job (Some job)) inInitialList) c s = Some (tt, s') /\
    s' = (if inInitialList && negb (JobFinished job)
          then do_TryRecv (counted onAddEvents s)
          else counted onAddEvents s) /\
    capacity s' = capacity s /\
    available s' =
      (if inInitialList && negb (JobFinished job)
       then (if bool_decide (available s = 0) then 0 else available s - 1)
       else available s).
Proof.
  eexists. split; [apply exec_OnAdd|]. simpl. split; [done|].
  destruct (inInitialList && negb (JobFinished job)); [|done].
  destruct (do_TryRecv_available (counted onAddEvents s)) as [Ha Hc].
  rewrite Ha, Hc. unfold counted.
  rewrite available_set_metrics, capacity_set_metrics.
  split; [done|]. clear Ha Hc. case_bool_decide; lia.
Qed.

(** C6: [OnUpdate] with two [*batchv1.Job]s does a non-blocking send of one
    token to the bucket exactly when the previous state is not finished and
    the current one is; in the three other cases the number of available
    tokens stays as it was. *)
Theorem OnUpdate_jobs (prevState currState : batchv1_Job) (c : choice)
    (s : Shared) :
  exists s',
    exec (OnUpdate (any_Job (Some prevState)) (any_Job (Some currState))) c s
      = Some (tt, s') /\
    s' = (if negb (JobFinished prevState) && JobFinished currState
          then do_TrySend (counted onUpdateEvents s)
          else counted onUpdateEvents s) /\
    capacity s' = capacity s /\
    available s' =
      (if negb (JobFinished prevState) && JobFinished currState
       then (if bool_decide (available s < capacity s)
             then available s + 1 else available s)
       else available s).
Proof.
  eexists. split; [apply exec_OnUpdate|]. simpl. split; [done|].
  destruct (negb (JobFinished prevState) && JobFinished currState); [|done].
  destruct (do_TrySend_available (counted onUpdateEvents s)) as [Ha Hc].
  rewrite Ha, Hc. unfold counted.
  by rewrite available_set_metrics, capacity_set_metrics.
Qed.

(** C7: [OnDelete] with a [*batchv1.Job] does a non-blocking send of one
    token to the bucket exactly when that last known state is not finished;
    when it is finished the number of available tokens stays as it was. *)
Theorem OnDelete_job (prevState : batchv1_Job) (c : choice) (s : Shared) :
  exists s',
    exec (OnDelete (any_Job (Some prevState))) c s = Some (tt, s') /\
    s' = (if negb (JobFinished prevState)
          then do_TrySend (counted onDeleteEvents s)
          else counted onDeleteEvents s) /\
    capacity s' = capacity s /\
    available s' =
      (if negb (JobFinished prevState)
       then (if bool_decide (available s < capacity s)
             then available s + 1 else available s)
       else available s).
Proof.
  eexists. split; [apply exec_OnDelete|]. simpl. split; [done|].
  destruct (negb (JobFinished prevState)); [|done].
  destruct (do_TrySend_available (counted onDeleteEvents s)) as [Ha Hc].
  rewrite Ha, Hc. unfold counted.
  by rewrite available_set_metrics, capacity_set_metrics.
Qed.

(** C9: a callback whose object is not a (non-nil) [*batchv1.Job] returns
    after counting the event and leaves the bucket as it was; for
    [OnUpdate] it is enough that one of the two objects is not one. *)
Theorem callbacks_ignore_other_objects (c : choice) (s : Shared) :
  (forall obj inInitialList,
     assert_Job obj = None ->
     exec (OnAdd obj inInitialList) c s = Some (tt, counted onAddEvents s)) /\
  (forall prev curr,
     assert_Job prev = None \/ assert_Job curr = None ->
     exec (OnUpdate prev curr) c s = Some (tt, counted onUpdateEvents s)) /\
  (forall obj,
     assert_Job obj = None ->
     exec (OnDelete obj) c s = Some (tt, counted onDeleteEvents s)) /\
  (forall ctr,
     tokenBucket (lim (counted ctr s)) = tokenBucket (lim s) /\
     available (counted ctr s) = available s).
Proof.
  split; [|split; [|split]].
  - intros obj b Hobj. by rewrite exec_OnAdd, Hobj.
  - intros prev curr [H|H]; rewrite exec_OnUpdate, H; [done|].
    by destruct (assert_Job prev).
  - intros obj Hobj. by rewrite exec_OnDelete, Hobj.
  - done.
Qed.

(** *** [Handle] after it has taken a token *)

(** C10, as amended: once the [select] of [Handle] has taken a token,
    whatever the other goroutines and the environment do next (closing the
    job's stale channel included), the call is never held up, and when it has
    returned, it has called the next handler and returns what that
    returned.  So after taking a token [Handle] returns [model.ErrStaleJob]
    only when the next handler returned it. *)
Theorem Handle_after_token (w : System) (tid : nat) (ctx : Context)
    (job : Job) (c0 : choice) (w1 : System) (t : list label) (w2 : System) :
  goroutines w !! tid = Some (GoHandle (Handle ctx job)) ->
  pick c0 = CaseToken ->
  step (Sched tid c0) w = Some w1 ->
  run t w1 = Some w2 ->
  ((exists r, goroutines w2 !! tid = Some (GoHandle (Ret r))) \/
   (forall c, is_Some (step (Sched tid c) w2))) /\
  (forall r,
     goroutines w2 !! tid = Some (GoHandle (Ret r)) ->
     exists t1 c t2 wa,
       t = t1 ++ Sched tid c :: t2 /\
       run t1 w1 = Some wa /\
       goroutines wa !! tid = Some (GoHandle (forwarding ctx job)) /\
       r = reply c /\
       (r = Some ErrStaleJob -> reply c = Some ErrStaleJob)).
Proof.
  intros Hg Hpick Hs Hr.
  destruct (step_own_goroutine _ _ _ _ _ Hs Hg) as (p1 & s1 & Hh & _ & Hg1).
  apply (head_step_Handle_token _ _ _ _ _ _ Hpick) in Hh as [-> _].
  split.
  - destruct (run_past_select_stays ctx job tid t _ _ _ _ Hr Hg1
                (past_token_taken ctx job)) as (p2 & pending2 & Hg2 & Hp2).
    destruct Hp2 as [| |[e|]|r0]; eauto;
      right; intros c; simpl; rewrite Hg2; simpl; eauto.
  - intros r Hret.
    destruct (run_past_select ctx job tid t _ _ _ None r Hr Hg1
                (past_token_taken ctx job) Hret)
      as (t1 & c & t2 & wa & -> & Hr1 & Hga & ->).
    exists t1, c, t2, wa. done.
Qed.

(** *** Running alone and running interleaved agree *)

Lemma exec_head_step {R} c (p p' : prog R) s s' :
  head_step c p s = Some (p', s') -> exec p c s = exec p' c s'.
Proof.
  destruct p; simpl; try (by intros [= <- <-]).
  destruct (do_SelectHandle ctx staleCh (pick c) s); [|done].
  by intros [= <- <-].
Qed.

Lemma run_alone_step tid c (p p' : prog (option error)) s' n w w' :
  goroutines w !! tid = Some (GoHandle p) ->
  head_step c p (shared w) = Some (p', s') ->
  run (replicate n (Sched tid c))
    {| shared := s'; goroutines := <[tid := GoHandle p']> (goroutines w) |}
    = Some w' ->
  run (replicate (S n) (Sched tid c)) w = Some w'.
Proof.
  intros Hg Hh Hr. cbn [replicate run step]. rewrite Hg.
  cbn [step_goroutine]. by rewrite Hh.
Qed.

(** The next operation of [tid] leads to program [p1] and state [s1]; the
    induction hypothesis [IH] gives the rest of the run. *)
Local Ltac alone_step IH He Hg w tid p1 s1 :=
  let n := fresh "n" in
  let w' := fresh "w'" in
  let Hr := fresh "Hr" in
  let Hs := fresh "Hs" in
  let Hg' := fresh "Hg'" in
  edestruct IH
    with (w := {| shared := s1;
                  goroutines := <[tid := GoHandle p1]> (goroutines w) |})
    as (n & w' & Hr & Hs & Hg');
  [ exact He
  | reflexivity
  | simpl; apply list_lookup_insert_eq; by eapply lookup_lt_Some
  | exists (S n), w'; split; [|done];
    eapply run_alone_step; [exact Hg| |exact Hr] ].

(** If a call of [Handle] (or what is left of it) returns [r] in state [s']
    when run alone, then scheduling only that goroutine brings the system
    there. *)
Lemma exec_run_alone (p : prog (option error)) c : forall s r s' w tid,
  exec p c s = Some (r, s') ->
  shared w = s ->
  goroutines w !! tid = Some (GoHandle p) ->
  exists n w',
    run (replicate n (Sched tid c)) w = Some w' /\
    shared w' = s' /\
    goroutines w' !! tid = Some (GoHandle (Ret r)).
Proof.
  induction p as [r0|ctx ch k IH|ctx k IH|ctx job k IH|k IH|k IH|ctr k IH|k IH];
    intros s r s' w tid He <- Hg; simpl in He.
  - injection He as <- <-. by exists 0%nat, w.
  - destruct (do_SelectHandle ctx ch (pick c) (shared w)) as [s1|] eqn:E;
      [|done].
    alone_step IH He Hg w tid (k (pick c)) s1. simpl. by rewrite E.
  - alone_step IH He Hg w tid (k (cancelled (shared w) !! ctx)) (shared w). done.
  - alone_step IH He Hg w tid (k (reply c)) (shared w). done.
  - alone_step IH He Hg w tid k (do_TryRecv (shared w)). done.
  - alone_step IH He Hg w tid k (do_TrySend (shared w)). done.
  - alone_step IH He Hg w tid k
      (set_metrics (metrics_Inc ctr (metrics (shared w))) (shared w)). done.
  - alone_step IH He Hg w tid k
      (set_metrics (metrics_Observe (metrics (shared w))) (shared w)). done.
Qed.

(** *** The informer's notifications in sequence *)

Lemma exec_bind {A B} (p : prog A) (f : A -> prog B) c : forall s,
  exec (bind p f) c s =
    match exec p c s with
    | Some (a, s') => exec (f a) c s'
    | None => None
    end.
Proof.
  induction p as [r0|ctx ch k IH|ctx k IH|ctx job k IH|k IH|k IH|ctr k IH|k IH];
    intros s; simpl; try done.
  destruct (do_SelectHandle ctx ch (pick c) s); [apply IH|done].
Qed.

(** A callback always returns: none of its operations can be held up. *)
Lemma exec_notify e c s : exec (notify e) c s = Some (tt, notified e s).
Proof.
  destruct e as [obj b|prev curr|obj]; cbn [notify notified].
  - rewrite exec_OnAdd. unfold unfinished.
    destruct (assert_Job obj) as [job|]; [done|]. by rewrite andb_false_r.
  - rewrite exec_OnUpdate. unfold unfinished, finished.
    destruct (assert_Job prev) as [p|]; [|done].
    destruct (assert_Job curr) as [q|]; [done|]. by rewrite andb_false_r.
  - rewrite exec_OnDelete. unfold unfinished.
    by destruct (assert_Job obj) as [job|].
Qed.

Lemma exec_notify_all_cons e es c s :
  exec (notify_all (e :: es)) c s = exec (notify_all es) c (notified e s).
Proof.
  change (notify_all (e :: es)) with (bind (notify e) (fun _ => notify_all es)).
  by rewrite exec_bind, exec_notify.
Qed.

Lemma exec_notify_all_Some es c : forall s,
  exists s', exec (notify_all es) c s = Some (tt, s').
Proof.
  induction es as [|e es IH]; intros s; [by exists s|].
  rewrite exec_notify_all_cons. apply IH.
Qed.

Lemma exec_notify_all_app es1 es2 c : forall s s1,
  exec (notify_all es1) c s = Some (tt, s1) ->
  exec (notify_all (es1 ++ es2)) c s = exec (notify_all es2) c s1.
Proof.
  induction es1 as [|e es1 IH]; intros s s1 He.
  - by injection He as <-.
  - rewrite <- app_comm_cons, exec_notify_all_cons.
    rewrite exec_notify_all_cons in He. by apply IH.
Qed.

Lemma metrics_set_bucket b s : metrics (set_bucket b s) = metrics s.
Proof. done. Qed.

Lemma metrics_do_TryRecv s :
  metrics (do_TryRecv s) = metrics s /\
  MaxInFlight_limit (lim (do_TryRecv s)) = MaxInFlight_limit (lim s).
Proof.
  unfold do_TryRecv.
  by destruct (chan_recv (tokenBucket (lim s))) as [[x b]|].
Qed.

Lemma metrics_do_TrySend s :
  metrics (do_TrySend s) = metrics s /\
  MaxInFlight_limit (lim (do_TrySend s)) = MaxInFlight_limit (lim s).
Proof.
  unfold do_TrySend. by destruct (chan_send (tokenBucket (lim s)) tt).
Qed.

(** What one notification does to the number of available tokens. *)
Lemma notified_available e s :
  capacity (notified e s) = capacity s /\
  available (notified e s) =
    match e with
    | Added obj inInitialList =>
        if inInitialList && unfinished obj
        then Z.max 0 (available s - 1) else available s
    | Updated prev curr =>
        if unfinished prev && finished curr
        then (if bool_decide (available s < capacity s)
              then available s + 1 else available s)
        else available s
    | Deleted obj =>
        if unfinished obj
        then (if bool_decide (available s < capacity s)
              then available s + 1 else available s)
        else available s
    end.
Proof.
  destruct e as [obj b|prev curr|obj]; simpl.
  - destruct (b && unfinished obj); [|done].
    destruct (do_TryRecv_available (counted onAddEvents s)) as [Ha Hc].
    rewrite Ha, Hc. unfold counted.
    rewrite available_set_metrics, capacity_set_metrics. split; [done|].
    clear Ha Hc. unfold available, len. case_bool_decide; lia.
  - destruct (unfinished prev && finished curr); [|done].
    destruct (do_TrySend_available (counted onUpdateEvents s)) as [Ha Hc].
    by rewrite Ha, Hc.
  - destruct (unfinished obj); [|done].
    destruct (do_TrySend_available (counted onDeleteEvents s)) as [Ha Hc].
    by rewrite Ha, Hc.
Qed.

(** What one notification does to the metrics: it counts the event, and
    nothing else. *)
Lemma notified_metrics e s :
  (forall ctr,
     counter_value ctr (metrics (notified e s)) =
       (counter_value ctr (metrics s) + (if is_kind ctr e then 1 else 0))%nat) /\
  maxInFlightGauge (metrics (notified e s)) = maxInFlightGauge (metrics s) /\
  tokenWaitDurationHistogram (metrics (notified e s))
    = tokenWaitDurationHistogram (metrics s) /\
  tokensAvailableFunc (metrics (notified e s))
    = tokensAvailableFunc (metrics s).
Proof.
  destruct e as [obj b|prev curr|obj]; cbn [notified].
  - assert (metrics (if b && unfinished obj
                     then do_TryRecv (counted onAddEvents s)
                     else counted onAddEvents s)
            = metrics (counted onAddEvents s)) as ->.
    { destruct (b && unfinished obj); [apply metrics_do_TryRecv|done]. }
    split; [|done]. intros ctr. destruct ctr; simpl; lia.
  - assert (metrics (if unfinished prev && finished curr
                     then do_TrySend (counted onUpdateEvents s)
                     else counted onUpdateEvents s)
            = metrics (counted onUpdateEvents s)) as ->.
    { destruct (unfinished prev && finished curr);
        [apply metrics_do_TrySend|done]. }
    split; [|done]. intros ctr. destruct ctr; simpl; lia.
  - assert (metrics (if unfinished obj
                     then do_TrySend (counted onDeleteEvents s)
                     else counted onDeleteEvents s)
            = metrics (counted onDeleteEvents s)) as ->.
    { destruct (unfinished obj); [apply metrics_do_TrySend|done]. }
    split; [|done]. intros ctr. destruct ctr; simpl; lia.
Qed.

(** X1: the initial list.  When the informer reports the objects that exist
    at registration, each by [OnAdd] with [inInitialList] set, the limiter
    takes one token for every job among them that is not finished, as long
    as the bucket has one: [n] such jobs leave [max 0 (a - n)] of [a] tokens
    available.  Objects that are not jobs and finished jobs take nothing. *)
Theorem initial_list_takes (objs : list any) (c : choice) (s : Shared) :
  exists s',
    exec (notify_all (initial_list objs)) c s = Some (tt, s') /\
    capacity s' = capacity s /\
    available s' =
      Z.max 0 (available s - Z.of_nat (count_unfinished objs)).
Proof.
  revert s. induction objs as [|obj objs IH]; intros s.
  - exists s. split; [done|]. split; [done|]. simpl.
    unfold available, len. lia.
  - cbn [initial_list map]. rewrite exec_notify_all_cons.
    destruct (IH (notified (Added obj true) s)) as (s' & He & Hc & Ha).
    exists s'. split; [exact He|].
    destruct (notified_available (Added obj true) s) as [Hc1 Ha1].
    rewrite Hc, Ha, Hc1, Ha1. split; [done|].
    cbn [count_unfinished andb]. destruct (unfinished obj); lia.
Qed.

Lemma changes_release c later : forall prev s,
  stays_finished prev later ->
  exists s',
    exec (notify_all (changes prev later)) c s = Some (tt, s') /\
    capacity s' = capacity s /\
    available s' =
      (if JobFinished prev then available s
       else if bool_decide (available s < capacity s)
            then available s + 1 else available s).
Proof.
  induction later as [|curr later IH]; intros prev s Hst.
  - cbn [changes]. rewrite exec_notify_all_cons. eexists. split; [done|].
    destruct (notified_available (Deleted (any_Job (Some prev))) s)
      as [Hc Ha].
    rewrite Hc, Ha. split; [done|]. unfold unfinished; simpl.
    by destruct (JobFinished prev).
  - destruct Hst as [Hfin Hst]. cbn [changes]. rewrite exec_notify_all_cons.
    set (e := Updated (any_Job (Some prev)) (any_Job (Some curr))).
    destruct (IH curr (notified e s) Hst) as (s' & He & Hc & Ha).
    exists s'. split; [exact He|].
    destruct (notified_available e s) as [Hc1 Ha1].
    rewrite Hc, Ha, Hc1, Ha1. split; [done|].
    unfold e, unfinished, finished; simpl.
    destruct (JobFinished prev) eqn:Hp; simpl.
    + by rewrite (Hfin eq_refl).
    + destruct (JobFinished curr); [done|].
      by destruct (bool_decide (available s < capacity s)).
Qed.

(** X2: one release per job.  For a job created while the limiter listens,
    the informer reports the addition, each change of state and at last the
    deletion.  If a finished job never becomes unfinished again, then over
    all these notifications the limiter sends exactly one token back to the
    bucket for a job that was added unfinished (when it finishes, or when
    it is deleted unfinished), and none for a job that was added finished:
    the deletion of a finished job never releases a second time. *)
Theorem lifecycle_releases_once (first : batchv1_Job)
    (later : list batchv1_Job) (c : choice) (s : Shared) :
  stays_finished first later ->
  exists s',
    exec (notify_all (lifecycle first later)) c s = Some (tt, s') /\
    capacity s' = capacity s /\
    available s' =
      (if JobFinished first then available s
       else if bool_decide (available s < capacity s)
            then available s + 1 else available s).
Proof.
  intros Hst. unfold lifecycle. rewrite exec_notify_all_cons.
  set (e := Added (any_Job (Some first)) false).
  destruct (changes_release c later first (notified e s) Hst)
    as (s' & He & Hc & Ha).
  exists s'. split; [exact He|].
  destruct (notified_available e s) as [Hc1 Ha1].
  rewrite Hc, Ha, Hc1, Ha1. done.
Qed.

Lemma finishing_releases c ps : forall s,
  Forall (fun pq => JobFinished (fst pq) = false /\
                    JobFinished (snd pq) = true) ps ->
  available s <= capacity s ->
  exists s',
    exec (notify_all (finishing ps)) c s = Some (tt, s') /\
    capacity s' = capacity s /\
    available s' = Z.min (capacity s) (available s + Z.of_nat (length ps)).
Proof.
  induction ps as [|[p q] ps IH]; intros s Hall Hle.
  - exists s. split; [done|]. split; [done|]. simpl. lia.
  - apply Forall_cons in Hall as [[Hp Hq] Hall]. simpl in Hp, Hq.
    cbn [finishing map]. rewrite exec_notify_all_cons. simpl fst; simpl snd.
    set (e := Updated (any_Job (Some p)) (any_Job (Some q))).
    destruct (notified_available e s) as [Hc1 Ha0].
    assert (available (notified e s) =
              if bool_decide (available s < capacity s)
              then available s + 1 else available s) as Ha1.
    { rewrite Ha0. unfold e, unfinished, finished. simpl.
      by rewrite Hp, Hq. }
    clear Ha0.
    destruct (IH (notified e s) Hall) as (s' & He & Hc & Ha).
    { rewrite Hc1, Ha1. case_bool_decide; lia. }
    exists s'. split; [exact He|]. rewrite Hc, Ha, Hc1, Ha1.
    split; [done|]. cbn [length]. case_bool_decide; lia.
Qed.

Lemma count_unfinished_all ps :
  Forall (fun pq : batchv1_Job * batchv1_Job =>
            JobFinished (fst pq) = false /\ JobFinished (snd pq) = true) ps ->
  count_unfinished (map (fun pq => any_Job (Some (fst pq))) ps) = length ps.
Proof.
  induction ps as [|[p q] ps IH]; intros Hall; [done|].
  apply Forall_cons in Hall as [[Hp _] Hall]. simpl in Hp.
  cbn [map count_unfinished length]. unfold unfinished; simpl.
  rewrite Hp. simpl. by rewrite IH.
Qed.

(** X3: the initial list, then the jobs finish.  When [n] unfinished jobs
    are reported in the initial list and each of them is later reported
    finished by an update, a bucket that held [a] tokens of its capacity
    holds [min capacity (max a n)] in the end.  From a full bucket the full
    capacity is back, however many jobs there were; from a bucket that
    was not full and held fewer tokens than there were jobs ([a < n]), more
    tokens are available in the end than at the start, since the jobs that
    found the bucket empty took none. *)
Theorem initial_list_then_finished (ps : list (batchv1_Job * batchv1_Job))
    (c : choice) (s : Shared) :
  Forall (fun pq => JobFinished (fst pq) = false /\
                    JobFinished (snd pq) = true) ps ->
  available s <= capacity s ->
  exists s',
    exec (notify_all
            (initial_list (map (fun pq => any_Job (Some (fst pq))) ps)
               ++ finishing ps)) c s = Some (tt, s') /\
    capacity s' = capacity s /\
    available s' =
      Z.min (capacity s) (Z.max (available s) (Z.of_nat (length ps))) /\
    (available s = capacity s -> available s' = capacity s).
Proof.
  intros Hall Hle.
  destruct (initial_list_takes (map (fun pq => any_Job (Some (fst pq))) ps)
              c s) as (s1 & He1 & Hc1 & Ha1).
  rewrite (count_unfinished_all ps Hall) in Ha1.
  assert (0 <= available s) as Hnn by (unfold available, len; lia).
  destruct (finishing_releases c ps s1 Hall) as (s' & He & Hc & Ha); [lia|].
  exists s'. split.
  - by rewrite (exec_notify_all_app _ _ _ _ _ He1).
  - rewrite Hc, Ha, Hc1, Ha1. split; [done|]. split; lia.
Qed.

Lemma notify_all_metrics c es : forall s,
  exists s',
    exec (notify_all es) c s = Some (tt, s') /\
    (forall ctr,
       counter_value ctr (metrics s') =
         (counter_value ctr (metrics s) + count_kind ctr es)%nat) /\
    maxInFlightGauge (metrics s') = maxInFlightGauge (metrics s) /\
    tokenWaitDurationHistogram (metrics s')
      = tokenWaitDurationHistogram (metrics s) /\
    tokensAvailableFunc (metrics s') = tokensAvailableFunc (metrics s).
Proof.
  induction es as [|e es IH]; intros s.
  - exists s. split; [done|]. split; [|done]. intros ctr. simpl. lia.
  - rewrite exec_notify_all_cons.
    destruct (IH (notified e s)) as (s' & He & Hctr & Hg & Hh & Hf).
    destruct (notified_metrics e s) as (Hctr1 & Hg1 & Hh1 & Hf1).
    exists s'. split; [exact He|].
    rewrite Hg, Hh, Hf, Hg1, Hh1, Hf1. split; [|done].
    intros ctr. rewrite Hctr, Hctr1. cbn [count_kind].
    destruct (is_kind ctr e); lia.
Qed.

(** X4: the event counters count every notification.  After any sequence
    of notifications each of the three counters has grown by the number of
    notifications of its kind, whether their objects were jobs or not and
    whether a token moved or not; the capacity gauge and the wait histogram
    are as they were. *)
Theorem notifications_counted (es : list event) (c : choice) (s : Shared) :
  exists s',
    exec (notify_all es) c s = Some (tt, s') /\
    onAddEvents_n (metrics s') =
      (onAddEvents_n (metrics s) + count_kind onAddEvents es)%nat /\
    onUpdateEvents_n (metrics s') =
      (onUpdateEvents_n (metrics s) + count_kind onUpdateEvents es)%nat /\
    onDeleteEvents_n (metrics s') =
      (onDeleteEvents_n (metrics s) + count_kind onDeleteEvents es)%nat /\
    maxInFlightGauge (metrics s') = maxInFlightGauge (metrics s) /\
    tokenWaitDurationHistogram (metrics s')
      = tokenWaitDurationHistogram (metrics s).
Proof.
  destruct (notify_all_metrics c es s) as (s' & He & Hctr & Hg & Hh & _).
  exists s'. split; [exact He|].
  split; [exact (Hctr onAddEvents)|]. split; [exact (Hctr onUpdateEvents)|].
  split; [exact (Hctr onDeleteEvents)|]. done.
Qed.

(** *** Calls of [Handle] only: the tokens missing are the tokens held *)

Lemma holding_range g : 0 <= holding g <= 1.
Proof.
  destruct g as [p|p]; simpl; [|lia].
  destruct p as [[e|]| | | | | | |]; lia.
Qed.

Lemma held_nonneg gs : 0 <= held gs.
Proof.
  induction gs as [|g gs IH]; simpl; [lia|].
  pose proof (holding_range g). lia.
Qed.

Lemma held_app gs gs' : held (gs ++ gs') = held gs + held gs'.
Proof. induction gs as [|g gs IH]; simpl; lia. Qed.

Lemma held_insert gs : forall i g g',
  gs !! i = Some g ->
  held (<[i := g']> gs) = held gs - holding g + holding g'.
Proof.
  induction gs as [|g0 gs IH]; intros [|i] g g' Hg; simpl in *; try done.
  - injection Hg as ->. lia.
  - rewrite (IH i g g' Hg). lia.
Qed.

Lemma held_lookup gs i g : gs !! i = Some g -> holding g <= held gs.
Proof.
  revert i. induction gs as [|g0 gs IH]; intros [|i] Hg; simpl in *; try done.
  - injection Hg as ->. pose proof (held_nonneg gs). lia.
  - pose proof (IH i Hg). pose proof (holding_range g0). lia.
Qed.

Lemma in_Handle_later s s' g :
  cancelled s' = cancelled s \/
  (forall ctx, is_Some (cancelled s !! ctx) -> is_Some (cancelled s' !! ctx)) ->
  in_Handle s g -> in_Handle s' g.
Proof.
  intros Hcan Hin. destruct Hin as [ctx job|ctx Hc|e|ctx job|ctx job|err];
    try by constructor.
  constructor. destruct Hcan as [->|Hcan]; [done|by apply Hcan].
Qed.

(** One operation of a call of [Handle]: the call stays a call of [Handle],
    and what it holds changes as the bucket does. *)
Lemma head_step_in_Handle c s p p' s' :
  in_Handle s (GoHandle p) ->
  available s + holding (GoHandle p) <= capacity s ->
  head_step c p s = Some (p', s') ->
  in_Handle s' (GoHandle p') /\
  available s' + holding (GoHandle p') = available s + holding (GoHandle p).
Proof.
  intros Hin Hroom Hh.
  inversion Hin as [ctx job|ctx Hc|e|ctx job|ctx job|err]; subst.
  - simpl in Hh. destruct (pick c); simpl in Hh.
    + case_bool_decide as Hc; [|done]. injection Hh as <- <-.
      split; [by constructor|done].
    + case_bool_decide; [|done]. injection Hh as <- <-.
      split; [constructor|done].
    + destruct (chan_recv (tokenBucket (lim s))) as [[x b]|] eqn:E; [|done].
      injection Hh as <- <-. split; [apply in_token_taken|].
      apply chan_recv_Some in E as [Hl _].
      unfold available in *; simpl. lia.
  - simpl in Hh. injection Hh as <- <-. destruct Hc as [e ->].
    split; [constructor|done].
  - done.
  - simpl in Hh. injection Hh as <- <-. split; [apply in_forwarding|done].
  - simpl in Hh. injection Hh as <- <-. split; [apply in_handled|].
    simpl. by destruct (reply c).
  - destruct err as [e|]; [|done]. simpl in Hh. injection Hh as <- <-.
    split; [constructor|].
    destruct (do_TrySend_available s) as [Ha _]. rewrite Ha.
    simpl in Hroom. rewrite bool_decide_eq_true_2 by lia. simpl. lia.
Qed.

(** The bucket has capacity [C], every goroutine is a call of [Handle], and
    the tokens not in the bucket are held by calls. *)
Lemma step_only_Handle C lb w w' :
  only_Handle lb ->
  step lb w = Some w' ->
  bucket_ok C (shared w) ->
  Forall (in_Handle (shared w)) (goroutines w) ->
  available (shared w) + held (goroutines w) = C ->
  Forall (in_Handle (shared w')) (goroutines w') /\
  available (shared w') + held (goroutines w') = C.
Proof.
  intros Honly Hs [Hwf Hcap] Hall Hsum.
  destruct lb as [cl|ctx cause|ch|tid c]; simpl in Hs.
  - injection Hs as <-. simpl. destruct cl as [ctx job| | |]; try done.
    split.
    + apply Forall_app. split; [done|]. repeat constructor.
    + rewrite held_app. simpl. lia.
  - injection Hs as <-. simpl. split; [|done].
    eapply Forall_impl; [exact Hall|]. intros g. apply in_Handle_later.
    right. intros ctx' Hc. simpl.
    destruct (cancelled (shared w) !! ctx) eqn:E; [done|].
    destruct (decide (ctx = ctx')) as [->|Hne].
    + rewrite lookup_insert_eq. eauto.
    + by rewrite lookup_insert_ne.
  - injection Hs as <-. simpl. split; [|done].
    eapply Forall_impl; [exact Hall|]. intros g. apply in_Handle_later.
    by left.
  - destruct (goroutines w !! tid) as [g|] eqn:Hg; [|done].
    pose proof (proj1 (Forall_lookup _ _) Hall tid g Hg) as Hin.
    pose proof (held_lookup _ _ _ Hg) as Hle.
    destruct g as [p|p]; [|by inversion Hin]. cbn [step_goroutine] in Hs.
    destruct (head_step c p (shared w)) as [[p' s']|] eqn:Hh; [|done].
    injection Hs as <-. simpl.
    destruct (head_step_in_Handle _ _ _ _ _ Hin ltac:(lia) Hh) as [Hin' Hsum'].
    split.
    + apply Forall_insert; [|exact Hin'].
      eapply Forall_impl; [exact Hall|].
      intros g0. apply in_Handle_later. left.
      by eapply head_step_cancelled.
    + rewrite (held_insert _ _ _ _ Hg). lia.
Qed.

Lemma run_only_Handle C t : forall w w',
  Forall only_Handle t ->
  run t w = Some w' ->
  bucket_ok C (shared w) ->
  Forall (in_Handle (shared w)) (goroutines w) ->
  available (shared w) + held (goroutines w) = C ->
  Forall (in_Handle (shared w')) (goroutines w') /\
  available (shared w') + held (goroutines w') = C.
Proof.
  induction t as [|lb t IH]; intros w w' Honly Hr Hok Hall Hsum;
    cbn [run] in Hr.
  - by injection Hr as <-.
  - apply Forall_cons in Honly as [Hlb Honly].
    destruct (step lb w) as [w1|] eqn:Hs; [|done].
    destruct (step_only_Handle C lb w w1 Hlb Hs Hok Hall Hsum) as [Hall1 Hsum1].
    eapply IH; [done..| |done|done]. by eapply step_bucket_ok.
Qed.

Lemma initial_only_Handle m C l m' can closed :
  New m C = Created l m' ->
  bucket_ok C (shared (initial l m' can closed)) /\
  Forall (in_Handle (shared (initial l m' can closed)))
    (goroutines (initial l m' can closed)) /\
  available (shared (initial l m' can closed))
    + held (goroutines (initial l m' can closed)) = C.
Proof.
  intros HN. apply New_Created in HN as (HC & Hl & Hc).
  unfold bucket_ok, available, capacity. simpl.
  split; [lia|]. split; [constructor|lia].
Qed.

(** X5: the tokens missing from the bucket are the tokens held.  As long as
    only calls of [Handle] run (no callback of the informer), after any
    interleaving the tokens available plus the calls holding one make up
    the capacity: a call holds a token from the moment its [select] took
    it, through the next handler, until it has put it back after an error;
    a call that returned nil keeps it.  So at most [C] calls have been
    admitted without having failed. *)
Theorem tokens_missing_are_held (m : Metrics) (C : Z) (l : MaxInFlight)
    (m' : Metrics) (can : gmap nat error) (closed : gset nat)
    (t : list label) (w : System) :
  New m C = Created l m' ->
  Forall only_Handle t ->
  run t (initial l m' can closed) = Some w ->
  available (shared w) + held (goroutines w) = C /\
  0 <= held (goroutines w) <= C.
Proof.
  intros HN Honly Hr.
  destruct (initial_only_Handle m C l m' can closed HN) as (Hok & Hall & Hsum).
  destruct (run_only_Handle C t _ _ Honly Hr Hok Hall Hsum) as [_ Hsum'].
  split; [done|]. pose proof (held_nonneg (goroutines w)).
  assert (0 <= available (shared w)) by (unfold available, len; lia). lia.
Qed.

(** X6: a failed call frees its token for the next caller.  As long as only
    calls of [Handle] run, a call whose next handler returned an error
    always finds room in the bucket: its non-blocking send puts the token
    back (it is never dropped), the call returns the error, and right
    after that every call waiting in its [select] can take a token. *)
Theorem failed_call_frees_its_token (m : Metrics) (C : Z) (l : MaxInFlight)
    (m' : Metrics) (can : gmap nat error) (closed : gset nat)
    (t : list label) (w : System) (tid : nat) (e : error) (c : choice) :
  New m C = Created l m' ->
  Forall only_Handle t ->
  run t (initial l m' can closed) = Some w ->
  goroutines w !! tid = Some (GoHandle (handled (Some e))) ->
  exists w',
    step (Sched tid c) w = Some w' /\
    available (shared w') = available (shared w) + 1 /\
    goroutines w' !! tid = Some (GoHandle (Ret (Some e))) /\
    (forall tid' ctx job c',
       goroutines w' !! tid' = Some (GoHandle (Handle ctx job)) ->
       pick c' = CaseToken ->
       is_Some (step (Sched tid' c') w')).
Proof.
  intros HN Honly Hr Hg.
  destruct (initial_only_Handle m C l m' can closed HN) as (Hok & Hall & Hsum).
  destruct (run_only_Handle C t _ _ Honly Hr Hok Hall Hsum) as [_ Hsum'].
  destruct (run_bucket_ok C t _ _ Hr Hok) as [Hwf Hcap].
  pose proof (held_lookup _ _ _ Hg) as Hle. simpl in Hle.
  destruct (do_TrySend_available (shared w)) as [Ha Hc].
  rewrite bool_decide_eq_true_2 in Ha by lia.
  eexists. split; [|split; [|split]].
  - cbn [step]. rewrite Hg. reflexivity.
  - exact Ha.
  - simpl. apply list_lookup_insert_eq. by eapply lookup_lt_Some.
  - intros tid' ctx job c' Hg' Hpick. cbn [step]. rewrite Hg'.
    cbn [step_goroutine shared]. simpl. rewrite Hpick. simpl.
    destruct (chan_recv (tokenBucket (lim (do_TrySend (shared w)))))
      as [[x b]|] eqn:E; [eauto|].
    apply chan_recv_None in E. unfold available in Ha.
    assert (0 <= len (tokenBucket (lim (shared w)))) by (unfold len; lia).
    lia.
Qed.

(** X7: when [Handle] blocks.  A call waiting in its [select] cannot go on,
    whichever case is tried, exactly when the bucket is empty, the context
    is not cancelled and the job's stale channel is not closed. *)
Theorem Handle_blocked_iff (w : System) (tid : nat) (ctx : Context)
    (job : Job) :
  goroutines w !! tid = Some (GoHandle (Handle ctx job)) ->
  (forall c, step (Sched tid c) w = None) <->
  (available (shared w) = 0 /\
   cancelled (shared w) !! ctx = None /\
   StaleCh job ∉ staleClosed (shared w)).
Proof.
  intros Hg.
  assert (forall c, step (Sched tid c) w = None <->
            do_SelectHandle ctx (StaleCh job) (pick c) (shared w) = None)
    as Hstep.
  { intros c. cbn [step]. rewrite Hg. cbn [step_goroutine]. simpl.
    by destruct (do_SelectHandle ctx (StaleCh job) (pick c) (shared w)). }
  split.
  - intros Hblocked. split; [|split].
    + pose proof (proj1 (Hstep {| pick := CaseToken; reply := None |})
                    (Hblocked _)) as Hn.
      simpl in Hn.
      destruct (chan_recv (tokenBucket (lim (shared w)))) as [[x b]|] eqn:E;
        [done|].
      by apply chan_recv_None in E.
    + pose proof (proj1 (Hstep {| pick := CaseCtxDone; reply := None |})
                    (Hblocked _)) as Hn.
      simpl in Hn. case_bool_decide as Hc; [done|].
      destruct (cancelled (shared w) !! ctx) eqn:E; [|done].
      exfalso. apply Hc. eauto.
    + pose proof (proj1 (Hstep {| pick := CaseStale; reply := None |})
                    (Hblocked _)) as Hn.
      simpl in Hn. by case_bool_decide.
  - intros (Hempty & Hctx & Hstale) c. apply Hstep.
    unfold do_SelectHandle. destruct (pick c).
    + rewrite bool_decide_eq_false_2; [done|]. rewrite Hctx. by intros [? ?].
    + by rewrite bool_decide_eq_false_2.
    + apply chan_recv_None in Hempty. by rewrite Hempty.
Qed.





(** X9: the wait histogram.  A call of [Handle] adds an observation to the
    wait histogram exactly when its [select] has taken a token: a call
    that ends on the cancelled context or on the stale job observes
    nothing.  A call never touches the event counters or the capacity
    gauge. *)
Theorem wait_observed_with_token (ctx : Context) (job : Job) (c : choice)
    (s : Shared) (r : option error) (s' : Shared) :
  exec (Handle ctx job) c s = Some (r, s') ->
  tokenWaitDurationHistogram (metrics s') =
    (tokenWaitDurationHistogram (metrics s) +
     match pick c with CaseToken => 1 | _ => 0 end)%nat /\
  onAddEvents_n (metrics s') = onAddEvents_n (metrics s) /\
  onUpdateEvents_n (metrics s') = onUpdateEvents_n (metrics s) /\
  onDeleteEvents_n (metrics s') = onDeleteEvents_n (metrics s) /\
  maxInFlightGauge (metrics s') = maxInFlightGauge (metrics s).
Proof.
  simpl. destruct (pick c) eqn:Hpick; simpl.
  - case_bool_decide; [|done]. rewrite ?Hpick. intros [= <- <-].
    split; [lia|done].
  - case_bool_decide; [|done]. rewrite ?Hpick. intros [= <- <-].
    split; [lia|done].
  - destruct (chan_recv (tokenBucket (lim s))) as [[x b]|]; [|done].
    rewrite ?Hpick. simpl. destruct (reply c) as [e|]; simpl.
    + intros [= <- <-].
      destruct (metrics_do_TrySend
                  (set_metrics (metrics_Observe (metrics s)) (set_bucket b s)))
        as [-> _].
      simpl. split; [lia|done].
    + intros [= <- <-]. simpl. split; [lia|done].
Qed.

(** *** A call never takes a second token *)

Lemma run_past_select_bounds ctx job tid t : forall w w2 p pending,
  run t w = Some w2 ->
  goroutines w !! tid = Some (GoHandle p) ->
  past_select ctx job p pending ->
  -1 <= taken_by tid t w <= 0.
Proof.
  induction t as [|lb t IH]; intros w w2 p pending Hr Hg Hp.
  - simpl. lia.
  - cbn [run] in Hr. destruct (step lb w) as [w1|] eqn:Hs; [|done].
    destruct (label_Sched_dec tid lb) as [[c ->]|Hne].
    + destruct (step_own_goroutine _ _ _ _ _ Hs Hg) as (p' & s' & Hh & Hsh & Hg').
      rewrite (taken_by_own _ _ _ _ _ Hs), Hsh.
      destruct Hp as [| |err|r0]; [| | |done].
      * injection Hh as <- <-. rewrite available_set_metrics.
        pose proof (IH _ _ _ _ Hr Hg' (past_forwarding ctx job)). lia.
      * injection Hh as <- <-.
        pose proof (IH _ _ _ _ Hr Hg' (past_handled ctx job _)). lia.
      * destruct err as [e|]; [|done]. injection Hh as <- <-.
        rewrite (run_idle tid t _ _ _ Hr Hg' I).
        destruct (do_TrySend_available (shared w)) as [Ha _]. rewrite Ha.
        case_bool_decide; lia.
    + rewrite (taken_by_other _ _ _ _ _ Hs Hne).
      eapply IH; [done| |done]. by eapply step_other_goroutine.
Qed.

(** X10: one token per call.  From the moment [Handle] is called, at every
    point of every interleaving, the call has taken at most one token more
    than it has put back and has never put back more than it took: it never
    takes a second token, and the only token it puts back is its own. *)
Theorem Handle_takes_at_most_one (tid : nat) (ctx : Context) (job : Job)
    (t : list label) : forall (w w2 : System),
  goroutines w !! tid = Some (GoHandle (Handle ctx job)) ->
  run t w = Some w2 ->
  0 <= taken_by tid t w <= 1.
Proof.
  induction t as [|lb t IH]; intros w w2 Hg Hr.
  - simpl. lia.
  - cbn [run] in Hr. destruct (step lb w) as [w1|] eqn:Hs; [|done].
    destruct (label_Sched_dec tid lb) as [[c ->]|Hne].
    + destruct (step_own_goroutine _ _ _ _ _ Hs Hg) as (p' & s' & Hh & Hsh & Hg').
      rewrite (taken_by_own _ _ _ _ _ Hs), Hsh.
      destruct (pick c) eqn:Hpick.
      * apply (head_step_Handle_ctx _ _ _ _ _ _ Hpick) in Hh as [-> ->].
        rewrite (run_idle tid t _ _ _ Hr Hg'); [lia|]. by intros ?.
      * apply (head_step_Handle_stale _ _ _ _ _ _ Hpick) in Hh as [-> ->].
        rewrite (run_idle tid t _ _ _ Hr Hg'); [lia|done].
      * apply (head_step_Handle_token _ _ _ _ _ _ Hpick) in Hh as [-> Ha].
        pose proof (run_past_select_bounds ctx job tid t _ _ _ _ Hr Hg'
                      (past_token_taken ctx job)).
        lia.
    + rewrite (taken_by_other _ _ _ _ _ Hs Hne).
      eapply IH; [|done]. by eapply step_other_goroutine.
Qed.

End Informer.

(** *** The statements at sample inputs

    The informer's objects are taken to be booleans here: the object is its
    own finished flag. *)

Lemma New_capacity_witness :
  -3 <= 0 /\ New metrics_init (-3) = Panicked "maxInFlight <= 0 (got -3)" /\
  1 <= 2 /\
  exists l m',
    New metrics_init 2 = Created l m' /\
    MaxInFlight_limit l = 2 /\
    cap (tokenBucket l) = 2 /\
    len (tokenBucket l) = 2.
Proof.
  assert (-3 <= 0) as Hneg by lia. assert (1 <= 2) as Hpos by lia.
  split; [exact Hneg|]. split.
  - exact (proj1 (New_capacity metrics_init (-3)) Hneg).
  - split; [exact Hpos|].
    exact (proj2 (New_capacity metrics_init 2) Hpos).
Defined.

Lemma available_within_capacity_witness :
  exists l m' w,
    New metrics_init 2 = Created l m' /\
    run bool (fun finished => finished) (delete_while_handling bool false)
      (initial l m' ∅ ∅) = Some w /\
    0 <= available (shared w) <= 2 /\
    capacity (shared w) = 2 /\
    (available (shared w) = 2 ->
     forall c, exec tryReturnToken c (shared w) = Some (tt, shared w)).
Proof.
  eexists _, _, _.
  split; [vm_compute; reflexivity|]. split; [vm_compute; reflexivity|].
  eapply (available_within_capacity bool (fun finished => finished)
            metrics_init 2 _ _ ∅ ∅ (delete_while_handling bool false));
    vm_compute; reflexivity.
Defined.

Lemma Handle_ctx_cancelled_witness :
  cancelled ctx_cancelled !! 0%nat = Some Canceled /\
  pick {| pick := CaseCtxDone; reply := None |} = CaseCtxDone /\
  exec (Handle 0%nat job0) {| pick := CaseCtxDone; reply := None |}
    ctx_cancelled = Some (Some Canceled, ctx_cancelled).
Proof.
  split; [reflexivity|]. split; [reflexivity|].
  exact (proj1 (Handle_ctx_cancelled bool (fun finished => finished) 0%nat
                  job0 {| pick := CaseCtxDone; reply := None |}
                  ctx_cancelled Canceled eq_refl eq_refl)).
Defined.

Lemma Handle_job_stale_witness :
  StaleCh job0 ∈ staleClosed job_stale /\
  pick {| pick := CaseStale; reply := None |} = CaseStale /\
  exec (Handle 0%nat job0) {| pick := CaseStale; reply := None |} job_stale
    = Some (Some ErrStaleJob, job_stale).
Proof.
  assert (StaleCh job0 ∈ staleClosed job_stale) as Hst
    by (unfold job_stale, sample, job0; simpl; set_solver).
  split; [exact Hst|]. split; [reflexivity|].
  exact (proj1 (Handle_job_stale bool (fun finished => finished) 0%nat job0
                  {| pick := CaseStale; reply := None |} job_stale
                  Hst eq_refl)).
Defined.

Lemma Handle_token_acquired_witness :
  0 < available (sample 1 [tt] ∅ ∅) <= capacity (sample 1 [tt] ∅ ∅) /\
  pick (token_then (Some (errors_New "create failed"))) = CaseToken /\
  exists s1,
    do_SelectHandle 0%nat (StaleCh job0) CaseToken (sample 1 [tt] ∅ ∅)
      = Some s1 /\
    available s1 = available (sample 1 [tt] ∅ ∅) - 1 /\
    match reply (token_then (Some (errors_New "create failed"))) with
    | Some e =>
        exec (Handle 0%nat job0)
          (token_then (Some (errors_New "create failed")))
          (sample 1 [tt] ∅ ∅) = Some (Some e, do_TrySend (admitted s1)) /\
        available (do_TrySend (admitted s1)) = available (sample 1 [tt] ∅ ∅)
    | None =>
        exec (Handle 0%nat job0)
          (token_then (Some (errors_New "create failed")))
          (sample 1 [tt] ∅ ∅) = Some (None, admitted s1) /\
        available (admitted s1) = available (sample 1 [tt] ∅ ∅) - 1
    end.
Proof.
  assert (0 < available (sample 1 [tt] ∅ ∅) <= capacity (sample 1 [tt] ∅ ∅))
    as Hav by (vm_compute; split; [reflexivity|discriminate]).
  split; [exact Hav|]. split; [reflexivity|].
  exact (proj1 (Handle_token_acquired bool (fun finished => finished) 0%nat
                  job0 (token_then (Some (errors_New "create failed")))
                  (sample 1 [tt] ∅ ∅) Hav eq_refl)).
Defined.

Lemma callbacks_ignore_other_objects_witness :
  assert_Job bool (any_nil bool) = None /\
  exec (OnAdd bool (fun finished => finished) (any_nil bool) true)
    (token_then None) (sample 1 [] ∅ ∅)
    = Some (tt, counted onAddEvents (sample 1 [] ∅ ∅)) /\
  (assert_Job bool (any_Job bool (Some false)) = None \/
   assert_Job bool (any_Job bool None) = None) /\
  exec (OnUpdate bool (fun finished => finished)
          (any_Job bool (Some false)) (any_Job bool None))
    (token_then None) (sample 1 [] ∅ ∅)
    = Some (tt, counted onUpdateEvents (sample 1 [] ∅ ∅)) /\
  assert_Job bool (any_other bool "cache.DeletedFinalStateUnknown") = None /\
  exec (OnDelete bool (fun finished => finished)
          (any_other bool "cache.DeletedFinalStateUnknown"))
    (token_then None) (sample 1 [] ∅ ∅)
    = Some (tt, counted onDeleteEvents (sample 1 [] ∅ ∅)) /\
  available (counted onDeleteEvents (sample 1 [] ∅ ∅))
    = available (sample 1 [] ∅ ∅).
Proof.
  pose proof (callbacks_ignore_other_objects bool (fun finished => finished)
                (token_then None) (sample 1 [] ∅ ∅))
    as (Hadd & Hupd & Hdel & Hcnt).
  split; [reflexivity|]. split; [exact (Hadd (any_nil bool) true eq_refl)|].
  split; [right; reflexivity|].
  split; [exact (Hupd (any_Job bool (Some false)) (any_Job bool None)
                   (or_intror eq_refl))|].
  split; [reflexivity|]. split;
    [exact (Hdel (any_other bool "cache.DeletedFinalStateUnknown") eq_refl)|].
  exact (proj2 (Hcnt onDeleteEvents)).
Defined.

Lemma Handle_after_token_witness :
  exists w1 w2,
    goroutines one_call !! 0%nat = Some (GoHandle (Handle 0%nat job0)) /\
    pick (token_then (Some Canceled)) = CaseToken /\
    step bool (fun finished => finished)
      (Sched bool 0 (token_then (Some Canceled))) one_call = Some w1 /\
    run bool (fun finished => finished)
      (stale_after_token bool (Some Canceled)) w1 = Some w2 /\
    goroutines w2 !! 0%nat = Some (GoHandle (Ret (Some Canceled))) /\
    ((exists r, goroutines w2 !! 0%nat = Some (GoHandle (Ret r))) \/
     (forall c, is_Some (step bool (fun finished => finished)
                           (Sched bool 0 c) w2))).
Proof.
  eexists _, _.
  split; [reflexivity|]. split; [reflexivity|].
  split; [vm_compute; reflexivity|]. split; [vm_compute; reflexivity|].
  split; [reflexivity|].
  refine (proj1 (Handle_after_token bool (fun finished => finished) one_call
                   0%nat 0%nat job0 (token_then (Some Canceled)) _
                   (stale_after_token bool (Some Canceled)) _
                   eq_refl eq_refl _ _));
    vm_compute; reflexivity.
Defined.

(** C10 as it is stated fails: the call takes the only token, the job's
    stale channel is closed, the job is forwarded, the next handler returns
    [model.ErrStaleJob], and [Handle] returns that error, after it has taken
    a token. *)
Lemma Handle_stale_error_after_token :
  exists w1 w2,
    step bool (fun finished => finished)
      (Sched bool 0 (token_then (Some ErrStaleJob))) one_call = Some w1 /\
    available (shared one_call) = 1 /\
    available (shared w1) = 0 /\
    run bool (fun finished => finished)
      (stale_after_token bool (Some ErrStaleJob)) w1 = Some w2 /\
    goroutines w2 !! 0%nat = Some (GoHandle (Ret (Some ErrStaleJob))).
Proof.
  eexists _, _.
  split; [vm_compute; reflexivity|]. split; [reflexivity|].
  split; [reflexivity|]. split; [vm_compute; reflexivity|]. reflexivity.
Qed.

Lemma lifecycle_releases_once_witness :
  stays_finished bool (fun finished => finished) false [false; true] /\
  exists s',
    exec (notify_all bool (fun finished => finished)
            (lifecycle bool false [false; true]))
      (token_then None) (sample 2 [tt] ∅ ∅) = Some (tt, s') /\
    capacity s' = capacity (sample 2 [tt] ∅ ∅) /\
    available s' = 2.
Proof.
  assert (stays_finished bool (fun finished => finished) false [false; true])
    as Hst by (simpl; repeat split; intros; (reflexivity || assumption)).
  split; [exact Hst|].
  exact (lifecycle_releases_once bool (fun finished => finished) false
           [false; true] (token_then None) (sample 2 [tt] ∅ ∅) Hst).
Defined.

Lemma initial_list_then_finished_witness :
  available (sample 3 [tt] ∅ ∅) <= capacity (sample 3 [tt] ∅ ∅) /\
  exists s',
    exec (notify_all bool (fun finished => finished)
            (initial_list bool
               (map (fun pq => any_Job bool (Some (fst pq)))
                  [(false, true); (false, true)])
             ++ finishing bool [(false, true); (false, true)]))
      (token_then None) (sample 3 [tt] ∅ ∅) = Some (tt, s') /\
    capacity s' = 3 /\
    available s' = 2 /\
    (available (sample 3 [tt] ∅ ∅) = capacity (sample 3 [tt] ∅ ∅) ->
     available s' = capacity (sample 3 [tt] ∅ ∅)).
Proof.
  assert (available (sample 3 [tt] ∅ ∅) <= capacity (sample 3 [tt] ∅ ∅))
    as Hle by (vm_compute; discriminate).
  assert (Forall (fun pq : bool * bool => fst pq = false /\ snd pq = true)
            [(false, true); (false, true)]) as Hall
    by (repeat constructor).
  split; [exact Hle|].
  exact (initial_list_then_finished bool (fun finished => finished)
           [(false, true); (false, true)] (token_then None)
           (sample 3 [tt] ∅ ∅) Hall Hle).
Defined.

Lemma tokens_missing_are_held_witness :
  exists l m' w,
    New metrics_init 1 = Created l m' /\
    Forall (only_Handle bool) (failing_call bool) /\
    run bool (fun finished => finished) (failing_call bool)
      (initial l m' ∅ ∅) = Some w /\
    available (shared w) + held (goroutines w) = 1 /\
    0 <= held (goroutines w) <= 1.
Proof.
  assert (Forall (only_Handle bool) (failing_call bool)) as Hall
    by (repeat constructor).
  eexists _, _, _.
  split; [vm_compute; reflexivity|]. split; [exact Hall|].
  split; [vm_compute; reflexivity|].
  eapply (tokens_missing_are_held bool (fun finished => finished)
            metrics_init 1 _ _ ∅ ∅ (failing_call bool));
    [vm_compute; reflexivity|exact Hall|vm_compute; reflexivity].
Defined.

Lemma failed_call_frees_its_token_witness :
  exists l m' w w',
    New metrics_init 1 = Created l m' /\
    Forall (only_Handle bool) (failing_call bool) /\
    run bool (fun finished => finished) (failing_call bool)
      (initial l m' ∅ ∅) = Some w /\
    goroutines w !! 0%nat
      = Some (GoHandle (handled (Some (errors_New "create failed")))) /\
    step bool (fun finished => finished)
      (Sched bool 0 (token_then None)) w = Some w' /\
    available (shared w') = available (shared w) + 1 /\
    goroutines w' !! 0%nat
      = Some (GoHandle (Ret (Some (errors_New "create failed")))) /\
    is_Some (step bool (fun finished => finished)
               (Sched bool 1 (token_then None)) w').
Proof.
  assert (Forall (only_Handle bool) (failing_call bool)) as Hall
    by (repeat constructor).
  destruct (New metrics_init 1) as [| |l m'] eqn:Hnew;
    [discriminate Hnew..|].
  destruct (run bool (fun finished => finished) (failing_call bool)
              (initial l m' ∅ ∅)) as [w|] eqn:Hrun.
  - assert (goroutines w !! 0%nat
            = Some (GoHandle (handled (Some (errors_New "create failed")))))
      as Hg by (vm_compute in Hnew, Hrun;
                injection Hnew as <- <-; injection Hrun as <-; reflexivity).
    destruct (failed_call_frees_its_token bool (fun finished => finished)
                metrics_init 1 l m' ∅ ∅ (failing_call bool) w 0%nat
                (errors_New "create failed") (token_then None)
                Hnew Hall Hrun Hg) as (w' & Hs & Ha & Hg' & Hnext).
    exists l, m', w, w'.
    repeat (split; [first [reflexivity | assumption]|]).
    apply (Hnext 1%nat 0%nat job0 (token_then None)); [|reflexivity].
    vm_compute in Hnew, Hrun. injection Hnew as <- <-. injection Hrun as <-.
    vm_compute in Hs. injection Hs as <-. reflexivity.
  - vm_compute in Hnew. injection Hnew as <- <-. vm_compute in Hrun.
    discriminate Hrun.
Defined.

Lemma Handle_blocked_iff_witness :
  goroutines waiting_call !! 0%nat = Some (GoHandle (Handle 0%nat job0)) /\
  available (shared waiting_call) = 0 /\
  cancelled (shared waiting_call) !! 0%nat = None /\
  (StaleCh job0 ∉ staleClosed (shared waiting_call)) /\
  (forall c, step bool (fun finished => finished) (Sched bool 0 c)
               waiting_call = None).
Proof.
  assert (StaleCh job0 ∉ staleClosed (shared waiting_call)) as Hst
    by apply not_elem_of_empty.
  split; [reflexivity|]. split; [reflexivity|]. split; [reflexivity|].
  split; [exact Hst|].
  exact (proj2 (Handle_blocked_iff bool (fun finished => finished)
                  waiting_call 0%nat 0%nat job0 eq_refl)
           (conj eq_refl (conj eq_refl Hst))).
Defined.


Lemma wait_observed_with_token_witness :
  exists s',
    exec (Handle 0%nat job0) (token_then None) (sample 1 [tt] ∅ ∅)
      = Some (None, s') /\
    tokenWaitDurationHistogram (metrics s') =
      (tokenWaitDurationHistogram (metrics (sample 1 [tt] ∅ ∅)) + 1)%nat /\
    onAddEvents_n (metrics s') = onAddEvents_n (metrics (sample 1 [tt] ∅ ∅)) /\
    onUpdateEvents_n (metrics s')
      = onUpdateEvents_n (metrics (sample 1 [tt] ∅ ∅)) /\
    onDeleteEvents_n (metrics s')
      = onDeleteEvents_n (metrics (sample 1 [tt] ∅ ∅)) /\
    maxInFlightGauge (metrics s')
      = maxInFlightGauge (metrics (sample 1 [tt] ∅ ∅)).
Proof.
  eexists. split; [vm_compute; reflexivity|].
  eapply (wait_observed_with_token 0%nat job0 (token_then None)
            (sample 1 [tt] ∅ ∅) None).
  vm_compute; reflexivity.
Defined.

Lemma Handle_takes_at_most_one_witness :
  exists w2,
    goroutines one_call !! 0%nat = Some (GoHandle (Handle 0%nat job0)) /\
    run bool (fun finished => finished)
      (Sched bool 0 (token_then (Some Canceled))
         :: stale_after_token bool (Some Canceled)) one_call = Some w2 /\
    0 <= taken_by bool (fun finished => finished) 0
           (Sched bool 0 (token_then (Some Canceled))
              :: stale_after_token bool (Some Canceled)) one_call <= 1.
Proof.
  eexists. split; [reflexivity|]. split; [vm_compute; reflexivity|].
  eapply (Handle_takes_at_most_one bool (fun finished => finished) 0%nat
            0%nat job0); [reflexivity|vm_compute; reflexivity].
Defined.

End limiter.
